(** * xoreos: module context (KotOR2) and NWN2 script engine functions

    A shallow embedding of
    - [src/engines/kotor2/module.h]: the [Module] context with its
      [Action] record, the [ActionQueue] ([std::multiset<Action>]) and the
      [EventQueue] ([std::list<Events::Event>]);
    - [src/engines/nwn2/script/functions.cpp]: [registerFunctions],
      [unimplementedFunction], [getRandom], [formatTag], [formatParams],
      [getParamObject] and [jumpTo].

    Definitions come first, the theorems about them follow. *)

From Stdlib Require Import ZArith NArith PArith List String Ascii Bool Lia.
From Stdlib Require Import DecimalString.
From Stdlib Require Import Sorting.Sorted Sorting.Permutation.
Import ListNotations.

(* ================================================================== *)
(** * Part I. Definitions                                              *)
(* ================================================================== *)

(** ** KotOR2 module context ([engines/kotor2/module.h]) *)

Module Kotor2.

(** [enum ActionType]. *)
Inductive ActionType : Type :=
| kActionNone
| kActionScript.

(** [Aurora::NWScript::ObjectReference]: a weak handle, the identifier of
    the object it refers to. *)
Definition ObjectReference : Type := N.

(** [Aurora::NWScript::ScriptState]: the captured state of a script; the
    queue never looks inside it. *)
Inductive ScriptState : Type :=
| ScriptStateToken (n : N).

(** [struct Action]; [timestamp] is a [uint32]. *)
Record Action : Type := mkAction {
  type      : ActionType;
  script    : string;
  state     : ScriptState;
  owner     : ObjectReference;
  triggerer : ObjectReference;
  timestamp : N
}.

(** Modelled from the spec: [Action::operator<] is declared in module.h and
    defined in module.cpp, which is absent.  The spec orders actions by
    timestamp ascending, nothing else taking part in the comparison. *)
Definition action_lt (a s : Action) : bool :=
  (timestamp a <? timestamp s)%N.

(** [typedef std::multiset<Action> ActionQueue]: the elements in iteration
    order, begin() first. *)
Definition ActionQueue : Type := list Action.

(** [std::multiset::insert]: the new element goes to the upper bound of the
    range of equivalent elements, that is, before the first element it is
    strictly less than. *)
Fixpoint insert (a : Action) (q : ActionQueue) : ActionQueue :=
  match q with
  | [] => [a]
  | b :: q' => if action_lt a b then a :: b :: q' else b :: insert a q'
  end.

(** A sequence of [insert] calls, first call first, on a queue [q]. *)
Definition insertAll (l : list Action) (q : ActionQueue) : ActionQueue :=
  fold_left (fun q' a => insert a q') l q.

(** Modelled from the spec: the draining loop ([Module::handleActions]) is
    in module.cpp, which is absent.  [popReady now q] takes actions from
    begin() as long as their timestamp is not after [now]; it returns the
    actions taken, in the order taken, and the queue that is left. *)
Fixpoint popReady (now : N) (q : ActionQueue) : list Action * ActionQueue :=
  match q with
  | [] => ([], [])
  | a :: q' =>
      if (now <? timestamp a)%N then ([], q)
      else let (ready, rest) := popReady now q' in (a :: ready, rest)
  end.

(** Readiness at time [now], the actions of one timestamp, and the order
    of timestamps, for stating what the queue guarantees. *)
Definition ready (now : N) (a : Action) : bool := (timestamp a <=? now)%N.
Definition pending (now : N) (a : Action) : bool := negb (ready now a).
Definition at_time (t : N) (a : Action) : bool := (timestamp a =? t)%N.
Definition ts_le (a b : Action) : Prop := (timestamp a <= timestamp b)%N.

(** [clear()] of the queue, used on unload. *)
Definition clearActions (q : ActionQueue) : ActionQueue := [].

(** [Events::Event]: an opaque notification. *)
Record Event : Type := mkEvent {
  event_origin  : N;
  event_payload : N
}.

(** [typedef std::list<Events::Event> EventQueue]. *)
Definition EventQueue : Type := list Event.

(** [ObjectType] is a bit mask declared in types.h (absent); only stored. *)
Definition ObjectType : Type := N.

(** [class Area] and [class Creature] are forward declarations here; an
    area is known by the resource it was loaded from, a creature by its
    tag. *)
Record Area : Type := mkArea { area_resref : string }.
Record Creature : Type := mkCreature { creature_tag : string }.

(** [Aurora::IFOFile]: the module's info record, as far as the context
    reads it: the entry area. *)
Record IFOFile : Type := mkIFO { ifo_entryArea : string }.

(** The resource system, consumed only: which module names resolve, and to
    which info record. *)
Definition Resources : Type := string -> option IFOFile.

(** The data members of [class Module] that the lifecycle uses, with the
    names of module.h. *)
Record Module : Type := mkModule {
  _hasModule         : bool;
  _running           : bool;
  _exit              : bool;
  _module            : string;
  _newModule         : string;
  _entryLocation     : string;
  _entryLocationType : ObjectType;
  _ifo               : option IFOFile;
  _pc                : option Creature;
  _area              : option Area;
  _eventQueue        : EventQueue;
  _delayedActions    : ActionQueue
}.

(** The error taxonomy of the lifecycle. *)
Inductive Error : Type :=
| ContentNotFound
| InvalidTransition.

Inductive Outcome : Type :=
| Done (m : Module)
| Failed (e : Error) (m : Module).

Definition isLoaded (m : Module) : bool := _hasModule m.
Definition isRunning (m : Module) : bool := _running m.
Definition getCurrentArea (m : Module) : option Area := _area m.
Definition getPC (m : Module) : option Creature := _pc m.

(** Modelled from the spec: [Module::changeModule] ("schedule a change to
    a new module") is defined in module.cpp, which is absent.  It records
    the requested target and nothing else. *)
Definition changeModule (module entryLocation : string)
    (entryLocationType : ObjectType) (m : Module) : Module :=
  {| _hasModule := _hasModule m; _running := _running m; _exit := _exit m;
     _module := _module m;
     _newModule := module;
     _entryLocation := entryLocation;
     _entryLocationType := entryLocationType;
     _ifo := _ifo m; _pc := _pc m; _area := _area m;
     _eventQueue := _eventQueue m; _delayedActions := _delayedActions m |}.

(** Modelled from the spec: [Module::unload(completeUnload)] is defined in
    module.cpp, which is absent.  It drops the area, the info record and
    both queues; a complete unload also drops the player character. *)
Definition unload (completeUnload : bool) (m : Module) : Module :=
  {| _hasModule := false; _running := false; _exit := _exit m;
     _module := EmptyString;
     _newModule := EmptyString;
     _entryLocation := EmptyString;
     _entryLocationType := _entryLocationType m;
     _ifo := None;
     _pc := if completeUnload then None else _pc m;
     _area := None;
     _eventQueue := [];
     _delayedActions := clearActions (_delayedActions m) |}.

(** Modelled from the spec: [Module::loadModule] ("load the actual module")
    is defined in module.cpp, which is absent.  An unresolvable name is
    reported and leaves the context as it was. *)
Definition loadModule (res : Resources) (module entryLocation : string)
    (entryLocationType : ObjectType) (m : Module) : Outcome :=
  match res module with
  | None => Failed ContentNotFound m
  | Some ifo =>
      let u := unload false m in
      Done {| _hasModule := true; _running := false; _exit := _exit u;
              _module := module;
              _newModule := EmptyString;
              _entryLocation := entryLocation;
              _entryLocationType := entryLocationType;
              _ifo := Some ifo; _pc := _pc u; _area := None;
              _eventQueue := _eventQueue u;
              _delayedActions := _delayedActions u |}
  end.

(** Modelled from the spec: [Module::load(module, entryLocation,
    entryLocationType)] is defined in module.cpp, which is absent.  With a
    module already loaded the request is only recorded. *)
Definition load (res : Resources) (module entryLocation : string)
    (entryLocationType : ObjectType) (m : Module) : Outcome :=
  if isLoaded m
  then Done (changeModule module entryLocation entryLocationType m)
  else loadModule res module entryLocation entryLocationType m.

(** Modelled from the spec: [Module::enter] is defined in module.cpp, which
    is absent.  It needs a loaded module that is not running, loads the
    entry area and starts running. *)
Definition enter (m : Module) : Outcome :=
  match _hasModule m, _running m, _ifo m with
  | true, false, Some ifo =>
      Done {| _hasModule := true; _running := true; _exit := false;
              _module := _module m; _newModule := _newModule m;
              _entryLocation := _entryLocation m;
              _entryLocationType := _entryLocationType m;
              _ifo := _ifo m; _pc := _pc m;
              _area := Some (mkArea (ifo_entryArea ifo));
              _eventQueue := _eventQueue m;
              _delayedActions := _delayedActions m |}
  | _, _, _ => Failed InvalidTransition m
  end.

(** Modelled from the spec: [Module::replaceModule] ("actually replace the
    currently running module") is defined in module.cpp, which is absent:
    with a target recorded, unload without dropping the player character,
    load the target, enter it. *)
Definition replaceModule (res : Resources) (m : Module) : Outcome :=
  if String.eqb (_newModule m) EmptyString then Done m
  else
    match loadModule res (_newModule m) (_entryLocation m)
            (_entryLocationType m) m with
    | Done m' => enter m'
    | Failed e m' => Failed e m'
    end.

(** Modelled from the spec: [handleEvents], [handleActions] and
    [handlePCMovement] are defined in module.cpp, which is absent.  The
    event phase consumes the whole event queue, the action phase takes the
    ready actions off the queue, the movement phase touches the player
    character's position only, which this record does not hold. *)
Definition handleEvents (m : Module) : list Event * Module :=
  (_eventQueue m,
   {| _hasModule := _hasModule m; _running := _running m; _exit := _exit m;
      _module := _module m; _newModule := _newModule m;
      _entryLocation := _entryLocation m;
      _entryLocationType := _entryLocationType m;
      _ifo := _ifo m; _pc := _pc m; _area := _area m;
      _eventQueue := [];
      _delayedActions := _delayedActions m |}).

Definition handleActions (now : N) (m : Module) : list Action * Module :=
  let (ready, rest) := popReady now (_delayedActions m) in
  (ready,
   {| _hasModule := _hasModule m; _running := _running m; _exit := _exit m;
      _module := _module m; _newModule := _newModule m;
      _entryLocation := _entryLocation m;
      _entryLocationType := _entryLocationType m;
      _ifo := _ifo m; _pc := _pc m; _area := _area m;
      _eventQueue := _eventQueue m;
      _delayedActions := rest |}).

Definition handlePCMovement (m : Module) : Module := m.

(** The first three phases of a tick, before the safe point. *)
Definition tickPhases (now : N) (m : Module) : Module :=
  handlePCMovement (snd (handleActions now (snd (handleEvents m)))).

(** Modelled from the spec: one tick of the main loop, valid only while
    running: events, ready actions, movement, then the safe point at which
    a recorded module change is carried out. *)
Definition tick (res : Resources) (now : N) (m : Module) : Outcome :=
  if isRunning m then replaceModule res (tickPhases now m)
  else Failed InvalidTransition m.

(** *** Sample data: a running module "m1" and a resolvable module "m2" *)

Definition sampleResources : Resources :=
  fun name =>
    if String.eqb name "m1" then Some (mkIFO "area1")
    else if String.eqb name "m2" then Some (mkIFO "area2")
    else None.

Definition sampleAction (s : string) (t : N) : Action :=
  mkAction kActionScript s (ScriptStateToken 0) 0%N 0%N t.

Definition sampleRunning : Module :=
  {| _hasModule := true; _running := true; _exit := false;
     _module := "m1"; _newModule := EmptyString;
     _entryLocation := EmptyString; _entryLocationType := 0%N;
     _ifo := Some (mkIFO "area1");
     _pc := Some (mkCreature "pc");
     _area := Some (mkArea "area1");
     _eventQueue := [mkEvent 1%N 2%N];
     _delayedActions :=
       insertAll [sampleAction "s" 5%N; sampleAction "t" 3%N] [] |}.

End Kotor2.

(** ** NWN2 engine functions ([engines/nwn2/script/functions.cpp]) *)

Module NWN2.

Local Open Scope string_scope.
Local Open Scope Z_scope.

(** *** Machine integers: [int] and [int32], 32 bits, two's complement *)

Definition INT_MIN : Z := - 2 ^ 31.
Definition INT_MAX : Z := 2 ^ 31 - 1.

(** The value a 32-bit signed integer holds after an operation whose
    mathematical result is [z]. *)
Definition wrap32 (z : Z) : Z := (z + 2 ^ 31) mod 2 ^ 32 - 2 ^ 31.

Definition add32 (a b : Z) : Z := wrap32 (a + b).
Definition sub32 (a b : Z) : Z := wrap32 (a - b).

(** [a % b] on [int]: truncated remainder, no value for a zero divisor
    (nor for [INT_MIN % -1]). *)
Definition rem32 (a b : Z) : option Z :=
  if b =? 0 then None
  else if (a =? INT_MIN) && (b =? -1) then None
  else Some (Z.rem a b).

(** *** [std::rand] *)

(** The hidden state of [std::rand]: the values it is going to return and
    how many of them were taken. *)
Record RandState : Type := mkRand {
  rand_values : nat -> Z;
  rand_taken  : nat
}.

Definition std_rand (s : RandState) : Z * RandState :=
  (rand_values s (rand_taken s),
   {| rand_values := rand_values s; rand_taken := S (rand_taken s) |}).

(** What the C library promises of [rand]: an [int] that is not negative. *)
Definition rand_ok (s : RandState) : Prop :=
  forall i, 0 <= rand_values s i <= INT_MAX.

(** *** [Functions::getRandom] *)

(** The loop [while (n-- > 0) r += std::rand() % (max - min + 1) + min;]
    entered with [n >= 1] runs its body [n] times; [k] counts the runs
    that are left. *)
Fixpoint getRandom_loop (k : nat) (min max r : Z) (s : RandState)
  : option (Z * RandState) :=
  match k with
  | O => Some (r, s)
  | S k' =>
      let (x, s') := std_rand s in
      match rem32 x (add32 (sub32 max min) 1) with
      | None => None
      | Some d => getRandom_loop k' min max (add32 r (add32 d min)) s'
      end
  end.

Definition getRandom (min max n : Z) (s : RandState)
  : option (Z * RandState) :=
  let n := if n <? 1 then 1 else n in
  getRandom_loop (Z.to_nat n) min max 0 s.

(** For stating the result: one draw out of a value of [std::rand], and
    the sum of [k] values of [f] from index [i] on, both in unbounded
    arithmetic. *)
Definition drawOf (min max x : Z) : Z := x mod (max - min + 1) + min.

Fixpoint sumFrom (f : nat -> Z) (i k : nat) : Z :=
  match k with
  | O => 0
  | S k' => f i + sumFrom f (S i) k'
  end.

(** *** Objects, areas and the world the functions act on *)

(** Addresses of [NWN2::Object] and [Area] instances; a null pointer is
    [None] of the option type. *)
Definition ObjPtr : Type := positive.
Definition AreaPtr : Type := positive.

(** [enum ObjectType] is declared in types.h (absent); the functions here
    tell apart the invalid type, the fake type that stands for the calling
    object, and everything else. *)
Inductive ObjectType : Type :=
| kObjectTypeInvalid
| kObjectTypeSelf
| kObjectTypeOther (code : N).

Definition ObjectType_eqb (a b : ObjectType) : bool :=
  match a, b with
  | kObjectTypeInvalid, kObjectTypeInvalid => true
  | kObjectTypeSelf, kObjectTypeSelf => true
  | kObjectTypeOther c, kObjectTypeOther d => N.eqb c d
  | _, _ => false
  end.

(** A [float]: 32 bits, stored and passed on, never computed with. *)
Record float : Type := mkFloat { float_bits : N }.

(** The state of an [NWN2::Object] that [jumpTo], [getParamObject] and
    [formatTag] read or write through its methods. *)
Record Object : Type := mkObject {
  _tag         : string;
  _type        : ObjectType;
  _area        : option AreaPtr;
  _position    : float * float * float;
  _visible     : bool;
  _modelLoaded : bool
}.

(** The world: the object behind every address, whether that object is an
    [NWN2::Object] (what the [dynamic_cast] of [ObjectContainer::toObject]
    tests; of any other script object only the tag is read), the resource
    reference of every area, and the module's player character. *)
Record World : Type := mkWorld {
  objects      : ObjPtr -> Object;
  isNWN2Object : ObjPtr -> bool;
  resRef       : AreaPtr -> string;
  pc           : option ObjPtr
}.

(** What a call does to the outside, in call order. *)
Inductive Effect : Type :=
| Warning (msg : string)
| LockFrame
| UnlockFrame
| Hide (o : ObjPtr)
| UnloadModel (o : ObjPtr)
| LoadModel (o : ObjPtr)
| Show (o : ObjPtr)
| SetArea (o : ObjPtr) (a : option AreaPtr)
| SetPosition (o : ObjPtr) (x y z : float)
| MovedPC.

(** A call ends normally, with a value and a world, or it faults: a null
    pointer was dereferenced, an array was read past its end or a variable
    was read at the wrong type, and the call has no normal return. *)
Inductive Outcome (A : Type) : Type :=
| Done (a : A) (w : World)
| Fault.
Arguments Done {A} a w.
Arguments Fault {A}.

(** The monad of the engine functions: world passing, with the trace of
    effects and faults. *)
Definition M (A : Type) : Type := World -> list Effect * Outcome A.

Definition ret {A : Type} (a : A) : M A := fun w => (nil, Done a w).

(** The effects [t] happened, then the call went on as [r]. *)
Definition prepend {A : Type} (t : list Effect) (r : list Effect * Outcome A)
  : list Effect * Outcome A :=
  ((t ++ fst r)%list, snd r).

Definition bind {A B : Type} (m : M A) (f : A -> M B) : M B :=
  fun w =>
    match m w with
    | (t, Done a w') => prepend t (f a w')
    | (t, Fault) => (t, Fault)
    end.

Notation "x <- m ;; k" := (bind m (fun x => k))
  (at level 61, m at next level, right associativity).
Notation "m ;; k" := (bind m (fun _ => k))
  (at level 61, right associativity).

Definition emit (e : Effect) : M unit := fun w => ([e], Done tt w).
Definition fault {A : Type} : M A := fun w => (nil, Fault).
Definition gets {A : Type} (f : World -> A) : M A := fun w => (nil, Done (f w) w).

(** Writing one object. *)
Definition setObject (o : ObjPtr) (v : Object) (w : World) : World :=
  {| objects := fun p => if Pos.eqb p o then v else objects w p;
     isNWN2Object := isNWN2Object w;
     resRef := resRef w;
     pc := pc w |}.

Definition update (o : ObjPtr) (f : Object -> Object) : M unit :=
  fun w => (nil, Done tt (setObject o (f (objects w o)) w)).

(** Dereferencing an [Area *]. *)
Definition derefArea (a : option AreaPtr) : M AreaPtr :=
  match a with
  | Some p => ret p
  | None => fault
  end.

(** [Object::getArea], [Area::getResRef], [Module::getPC]. *)
Definition getArea (o : ObjPtr) : M (option AreaPtr) :=
  gets (fun w => _area (objects w o)).
Definition getResRef (a : AreaPtr) : M string :=
  gets (fun w => resRef w a).
Definition getPC : M (option ObjPtr) := gets pc.

(** Modelled from the spec: [Object::hide], [show], [loadModel],
    [unloadModel], [setArea] and [setPosition] are declared in object.h
    (absent).  Each is recorded as a call and sets the one attribute the
    spec names: visibility, the visual representation, the area reference,
    the position. *)
Definition hide (o : ObjPtr) : M unit :=
  emit (Hide o) ;;
  update o (fun v => mkObject (_tag v) (_type v) (_area v) (_position v)
                       false (_modelLoaded v)).
Definition show (o : ObjPtr) : M unit :=
  emit (Show o) ;;
  update o (fun v => mkObject (_tag v) (_type v) (_area v) (_position v)
                       true (_modelLoaded v)).
Definition unloadModel (o : ObjPtr) : M unit :=
  emit (UnloadModel o) ;;
  update o (fun v => mkObject (_tag v) (_type v) (_area v) (_position v)
                       (_visible v) false).
Definition loadModel (o : ObjPtr) : M unit :=
  emit (LoadModel o) ;;
  update o (fun v => mkObject (_tag v) (_type v) (_area v) (_position v)
                       (_visible v) true).
Definition setArea (o : ObjPtr) (a : option AreaPtr) : M unit :=
  emit (SetArea o a) ;;
  update o (fun v => mkObject (_tag v) (_type v) a (_position v)
                       (_visible v) (_modelLoaded v)).
Definition setPosition (o : ObjPtr) (x y z : float) : M unit :=
  emit (SetPosition o x y z) ;;
  update o (fun v => mkObject (_tag v) (_type v) (_area v) (x, y, z)
                       (_visible v) (_modelLoaded v)).

(** [GfxMan.lockFrame], [GfxMan.unlockFrame], [Module::movedPC],
    [warning]: calls into collaborators. *)
Definition lockFrame : M unit := emit LockFrame.
Definition unlockFrame : M unit := emit UnlockFrame.
Definition movedPC : M unit := emit MovedPC.
Definition warning (msg : string) : M unit := emit (Warning msg).

(** Pointer comparison. *)
Definition ptr_eqb (a b : option positive) : bool :=
  match a, b with
  | Some p, Some q => Pos.eqb p q
  | None, None => true
  | _, _ => false
  end.

Definition isNull {A : Type} (p : option A) : bool :=
  match p with Some _ => false | None => true end.

(** [%d] of a truth value, and the double quote character. *)
Definition fmt_bool (b : bool) : string := if b then "1" else "0".
Definition dquote : string := String (ascii_of_nat 34) EmptyString.

(** *** [Functions::jumpTo] *)

(** [ObjectContainer::toObject] applied to the player character is an
    upcast from [Creature *]: it is null exactly when there is no player
    character. *)

Definition jumpTo (object : ObjPtr) (area : option AreaPtr) (x y z : float)
  : M unit :=
  a0 <- getArea object ;;
  if isNull a0 || isNull area then
    warning ("Functions::jumpTo(): No area?!? ("
             ++ fmt_bool (negb (isNull a0)) ++ ", "
             ++ fmt_bool (negb (isNull area)) ++ ")")
  else
    lockFrame ;;
    a1 <- getArea object ;;
    (if negb (ptr_eqb a1 area) then
       from <- derefArea a1 ;;
       areaFrom <- getResRef from ;;
       to <- derefArea area ;;
       areaTo <- getResRef to ;;
       warning ("TODO: Functions::jumpTo(): Moving from " ++ dquote
                ++ areaFrom ++ dquote ++ " to " ++ dquote ++ areaTo
                ++ dquote) ;;
       p <- getPC ;;
       match p with
       | Some pc =>
           pa <- getArea pc ;;
           pa' <- derefArea pa ;;
           pcArea <- getResRef pa' ;;
           if String.eqb areaFrom pcArea then
             hide object ;;
             unloadModel object
           else if String.eqb areaTo pcArea then
             loadModel object ;;
             show object
           else ret tt
       | None => ret tt
       end ;;
       setArea object area
     else ret tt) ;;
    setPosition object x y z ;;
    unlockFrame ;;
    p <- getPC ;;
    if ptr_eqb (Some object) p then movedPC else ret tt.

(** Vocabulary for stating what [jumpTo] does. *)

(** The presented area: the area the player character is in, if there is a
    player character and it is in an area. *)
Definition presentedArea (w : World) : option AreaPtr :=
  match pc w with
  | Some p => _area (objects w p)
  | None => None
  end.

(** The player character, when there is one, is in an area. *)
Definition pcHasArea (w : World) : Prop :=
  forall p, pc w = Some p -> _area (objects w p) <> None.

(** Areas are told apart by their resource reference. *)
Definition distinctResRefs (w : World) : Prop :=
  forall a b, resRef w a = resRef w b -> a = b.

(** The warning of a move between areas, and the notification that ends a
    completed call. *)
Definition moveWarning (w : World) (from to : AreaPtr) : Effect :=
  Warning ("TODO: Functions::jumpTo(): Moving from " ++ dquote
           ++ resRef w from ++ dquote ++ " to " ++ dquote ++ resRef w to
           ++ dquote).

Definition notification (w : World) (o : ObjPtr) : list Effect :=
  if ptr_eqb (Some o) (pc w) then [MovedPC] else [].

(** Classes of effects. *)
Definition isLock (e : Effect) : bool :=
  match e with LockFrame => true | _ => false end.
Definition isUnlock (e : Effect) : bool :=
  match e with UnlockFrame => true | _ => false end.
Definition isMovedPC (e : Effect) : bool :=
  match e with MovedPC => true | _ => false end.
Definition isVisual (e : Effect) : bool :=
  match e with
  | Hide _ | UnloadModel _ | LoadModel _ | Show _ => true
  | _ => false
  end.
(** Calls that change an object. *)
Definition isMutation (e : Effect) : bool :=
  match e with
  | Hide _ | UnloadModel _ | LoadModel _ | Show _
  | SetArea _ _ | SetPosition _ _ _ _ => true
  | _ => false
  end.
(** What may happen between taking the frame lock and the position update:
    warnings, the visual calls and the area update. *)
Definition isInner (e : Effect) : bool :=
  match e with
  | Warning _ | Hide _ | UnloadModel _ | LoadModel _ | Show _
  | SetArea _ _ => true
  | _ => false
  end.

Definition count (f : Effect -> bool) (t : list Effect) : nat :=
  List.length (filter f t).

(** The trace and the final world of a call. *)
Definition traceOf {A : Type} (r : list Effect * Outcome A) : list Effect :=
  fst r.
Definition worldOf {A : Type} (r : list Effect * Outcome A) : option World :=
  match snd r with
  | Done _ w => Some w
  | Fault => None
  end.

(** The world after a completed call, seen from outside: the moved object
    has the state [v], every other object and the player character are
    who they were. *)
Definition movedTo (w w' : World) (o : ObjPtr) (v : Object) : Prop :=
  pc w' = pc w
  /\ objects w' o = v
  /\ (forall p, p <> o -> objects w' p = objects w p)
  /\ (forall a, resRef w' a = resRef w a).

Definition placed (v : Object) (a : AreaPtr) (x y z : float)
    (visible modelLoaded : bool) : Object :=
  mkObject (_tag v) (_type v) (Some a) (x, y, z) visible modelLoaded.

(** *** Script variables and the function context *)

(** [Aurora::NWScript::Type]. *)
Inductive Type_ : Type :=
| kTypeVoid
| kTypeInt
| kTypeFloat
| kTypeString
| kTypeObject
| kTypeVector
| kTypeStruct
| kTypeEngineType
| kTypeScriptState.

Definition isVoid (t : Type_) : bool :=
  match t with kTypeVoid => true | _ => false end.

(** [Aurora::NWScript::Variable]: a type tag with the value of that type. *)
Inductive Variable_ : Type :=
| VVoid
| VInt (i : Z)
| VFloat (f : float)
| VString (s : string)
| VObject (o : option ObjPtr)
| VVector (x y z : float)
| VStruct
| VEngineType
| VScriptState.

Definition getType (v : Variable_) : Type_ :=
  match v with
  | VVoid => kTypeVoid
  | VInt _ => kTypeInt
  | VFloat _ => kTypeFloat
  | VString _ => kTypeString
  | VObject _ => kTypeObject
  | VVector _ _ _ => kTypeVector
  | VStruct => kTypeStruct
  | VEngineType => kTypeEngineType
  | VScriptState => kTypeScriptState
  end.


(** [Aurora::NWScript::FunctionContext]: the name of the function called,
    its parameters, the calling object and the slot for the return value. *)
Record FunctionContext : Type := mkContext {
  ctx_name   : string;
  ctx_params : list Variable_;
  ctx_caller : option ObjPtr;
  ctx_return : Variable_
}.

(** [Common::composeString] (strutil.h, absent), for [int] and [float]. *)
Class StrUtil : Type := {
  composeInt   : Z -> string;
  composeFloat : float -> string
}.

(** *** [Functions::formatTag], [Functions::formatParams] *)

Definition formatTag (object : option ObjPtr) : M string :=
  match object with
  | None => ret "0"
  | Some p =>
      tag <- gets (fun w => _tag (objects w p)) ;;
      ret (dquote ++ tag ++ dquote)
  end.

Definition formatParam `{StrUtil} (v : Variable_) : M string :=
  match v with
  | VVoid => ret "<void>"
  | VInt i => ret (composeInt i)
  | VFloat f => ret (composeFloat f)
  | VString s => ret (dquote ++ s ++ dquote)
  | VObject o =>
      tag <- formatTag o ;;
      ret ("<object>(" ++ tag ++ ")")
  | VVector x y z =>
      ret ("(" ++ (composeFloat x ++ ", ") ++ (composeFloat y ++ ", ")
           ++ composeFloat z ++ ")")
  | VStruct => ret "<struct>"
  | VEngineType => ret "<engine>"
  | VScriptState => ret "<state>"
  end.

(** The loop over the parameters, from index [i] on, appending to
    [params]. *)
Fixpoint formatParams_loop `{StrUtil} (i : nat) (ps : list Variable_)
    (params : string) : M string :=
  match ps with
  | [] => ret params
  | v :: ps' =>
      let params := if Nat.eqb i 0 then params else params ++ ", " in
      piece <- formatParam v ;;
      formatParams_loop (S i) ps' (params ++ piece)
  end.

Definition formatParams `{StrUtil} (ctx : FunctionContext) : M string :=
  formatParams_loop 0 (ctx_params ctx) "".

(** *** [Functions::unimplementedFunction] and [Functions::registerFunctions] *)

(** [funcPtr]: a member function taking the context by reference. *)
Definition funcPtr : Type := FunctionContext -> M FunctionContext.

Definition unimplementedFunction `{StrUtil} : funcPtr :=
  fun ctx =>
    params <- formatParams ctx ;;
    warning ("TODO: " ++ ctx_name ctx ++ "(" ++ params ++ ")") ;;
    ret ctx.

(** The rows of [kFunctionPointers], [kFunctionSignatures] and
    [kFunctionDefaults] (function_tables.h, absent). *)
Record FunctionPointer : Type := mkFunctionPointer {
  fp_id   : N;
  fp_name : string;
  fp_func : option funcPtr
}.

Record FunctionSignature : Type := mkFunctionSignature {
  fs_id         : N;
  fs_returnType : Type_;
  fs_parameters : list Type_
}.

Record FunctionDefaults : Type := mkFunctionDefaults {
  fd_id       : N;
  fd_defaults : list (option Variable_)
}.

(** One call of [FunctionMan.registerFunction]. *)
Record Registration : Type := mkRegistration {
  reg_name      : string;
  reg_id        : N;
  reg_func      : funcPtr;
  reg_signature : list Type_;
  reg_defaults  : list Variable_
}.

(** The parameter types up to the first [kTypeVoid]. *)
Fixpoint signatureParameters (ps : list Type_) : list Type_ :=
  match ps with
  | [] => []
  | t :: ps' => if isVoid t then [] else t :: signatureParameters ps'
  end.

(** The default values up to the first null pointer. *)
Fixpoint defaultParameters (ds : list (option Variable_)) : list Variable_ :=
  match ds with
  | Some v :: ds' => v :: defaultParameters ds'
  | _ => []
  end.

(** The body of the loop for row [i]; [None] is the failed assertion on
    the ids. *)
Definition registerRow `{StrUtil} (fPtr : FunctionPointer)
    (fSig : FunctionSignature) (fDef : FunctionDefaults)
  : option Registration :=
  let id := fp_id fPtr in
  if N.eqb (fs_id fSig) id && N.eqb (fd_id fDef) id then
    let signature := fs_returnType fSig :: signatureParameters (fs_parameters fSig) in
    let defaults := defaultParameters (fd_defaults fDef) in
    let f := match fp_func fPtr with
             | Some func => func
             | None => unimplementedFunction
             end in
    Some (mkRegistration (fp_name fPtr) id f signature defaults)
  else None.

Fixpoint registerRows `{StrUtil} (ptrs : list FunctionPointer)
    (sigs : list FunctionSignature) (defs : list FunctionDefaults)
  : option (list Registration) :=
  match ptrs, sigs, defs with
  | fPtr :: ptrs', fSig :: sigs', fDef :: defs' =>
      match registerRow fPtr fSig fDef with
      | Some r =>
          match registerRows ptrs' sigs' defs' with
          | Some rs => Some (r :: rs)
          | None => None
          end
      | None => None
      end
  | _, _, _ => Some []
  end.

(** [registerFunctions]: the two assertions on the table sizes, then the
    rows in order.  The result is the sequence of registrations made with
    the function manager; [None] is a failed assertion. *)
Definition registerFunctions `{StrUtil} (kFunctionPointers : list FunctionPointer)
    (kFunctionSignatures : list FunctionSignature)
    (kFunctionDefaults : list FunctionDefaults)
  : option (list Registration) :=
  if negb (Nat.eqb (List.length kFunctionPointers) (List.length kFunctionSignatures))
  then None
  else if negb (Nat.eqb (List.length kFunctionPointers) (List.length kFunctionDefaults))
  then None
  else registerRows kFunctionPointers kFunctionSignatures kFunctionDefaults.

(** *** [Functions::getParamObject] *)

(** [ObjectContainer::toObject] (objectcontainer.h, absent): a
    [dynamic_cast] to [NWN2::Object *], null for a null pointer and for an
    object of another class. *)
Definition toObject (object : option ObjPtr) : M (option ObjPtr) :=
  match object with
  | None => ret None
  | Some p =>
      isObject <- gets (fun w => isNWN2Object w p) ;;
      ret (if isObject then Some p else None)
  end.

Definition getObjectType (o : ObjPtr) : M ObjectType :=
  gets (fun w => _type (objects w o)).

(** [ctx.getParams()[n].getObject()]: the [n]-th parameter read as an
    object reference. *)
Definition getParamAsObject (ctx : FunctionContext) (n : nat)
  : M (option ObjPtr) :=
  match nth_error (ctx_params ctx) n with
  | Some (VObject r) => ret r
  | _ => fault
  end.

Definition getParamObject (ctx : FunctionContext) (n : nat)
  : M (option ObjPtr) :=
  r <- getParamAsObject ctx n ;;
  object <- toObject r ;;
  match object with
  | None => ret None
  | Some o =>
      t <- getObjectType o ;;
      if ObjectType_eqb t kObjectTypeInvalid then ret None
      else
        t' <- getObjectType o ;;
        if ObjectType_eqb t' kObjectTypeSelf then ret (ctx_caller ctx)
        else ret (Some o)
  end.

(** *** Vocabulary for further statements *)

(** The text [formatTag] gives for an object pointer and the text
    [formatParams] gives for one parameter, as functions of the world. *)
Definition tagText (w : World) (o : option ObjPtr) : string :=
  match o with
  | None => "0"
  | Some p => dquote ++ _tag (objects w p) ++ dquote
  end.

Definition paramText `{StrUtil} (w : World) (v : Variable_) : string :=
  match v with
  | VVoid => "<void>"
  | VInt i => composeInt i
  | VFloat f => composeFloat f
  | VString s => dquote ++ s ++ dquote
  | VObject o => "<object>(" ++ tagText w o ++ ")"
  | VVector x y z =>
      "(" ++ (composeFloat x ++ ", ") ++ (composeFloat y ++ ", ")
      ++ composeFloat z ++ ")"
  | VStruct => "<struct>"
  | VEngineType => "<engine>"
  | VScriptState => "<state>"
  end.

(** The frame lock along a trace.  [guarded locked t]: starting with the
    lock held or not, [t] never takes the lock while it is held, never
    releases it while it is not, and calls nothing that changes an object
    unless the lock is held.  [lockedAfter locked t]: whether the lock is
    held after [t]. *)
Fixpoint guarded (locked : bool) (t : list Effect) : bool :=
  match t with
  | [] => true
  | LockFrame :: t' => negb locked && guarded true t'
  | UnlockFrame :: t' => locked && guarded false t'
  | e :: t' => (negb (isMutation e) || locked) && guarded locked t'
  end.

Fixpoint lockedAfter (locked : bool) (t : list Effect) : bool :=
  match t with
  | [] => locked
  | LockFrame :: t' => lockedAfter true t'
  | UnlockFrame :: t' => lockedAfter false t'
  | _ :: t' => lockedAfter locked t'
  end.

Definition isWarning (e : Effect) : bool :=
  match e with Warning _ => true | _ => false end.

(** One draw as the loop of [getRandom] computes it, for a modulus [m]. *)
Definition drawRem (min m x : Z) : Z := add32 (Z.rem x m) min.

(** *** Sample data *)

(** A name for every area address, no two the same. *)
Fixpoint areaName (a : AreaPtr) : string :=
  match a with
  | xH => ""
  | xO a' => String "0" (areaName a')
  | xI a' => String "1" (areaName a')
  end.

Definition sampleFloat (n : N) : float := mkFloat n.

Definition sampleObject (tag : string) (t : ObjectType) (a : option AreaPtr)
  : Object :=
  mkObject tag t a (sampleFloat 0, sampleFloat 0, sampleFloat 0) true true.

(** Object 1 is the player character, in area 1; object 2 is a creature in
    area 2; object 3 is in no area; object 4 has the type that stands for
    the caller; object 5 has the invalid type; all others are creatures in
    area 3. *)
Definition sampleObjects (p : ObjPtr) : Object :=
  match p with
  | 1%positive => sampleObject "pc" (kObjectTypeOther 1) (Some 1%positive)
  | 2%positive => sampleObject "npc" (kObjectTypeOther 1) (Some 2%positive)
  | 3%positive => sampleObject "limbo" (kObjectTypeOther 1) None
  | 4%positive => sampleObject "self" kObjectTypeSelf None
  | 5%positive => sampleObject "invalid" kObjectTypeInvalid None
  | _ => sampleObject "other" (kObjectTypeOther 1) (Some 3%positive)
  end.

Definition sampleWorld : World :=
  mkWorld sampleObjects (fun _ => true) areaName (Some 1%positive).

(** The sample world with one more object, 6, in area 1 with the player
    character. *)
Definition sampleObjectsNear (p : ObjPtr) : Object :=
  match p with
  | 6%positive => sampleObject "near" (kObjectTypeOther 1) (Some 1%positive)
  | _ => sampleObjects p
  end.

Definition sampleWorldNear : World :=
  mkWorld sampleObjectsNear (fun _ => true) areaName (Some 1%positive).


(** The same world with object 3, which is in no area, as the player
    character. *)
Definition sampleWorldLimbo : World :=
  mkWorld sampleObjects (fun _ => true) areaName (Some 3%positive).

(** Decimal printing for the sample runs. *)
Definition sampleStrUtil : StrUtil :=
  {| composeInt := fun i => NilZero.string_of_int (Z.to_int i);
     composeFloat := fun f =>
       "bits:" ++ NilZero.string_of_uint (N.to_uint (float_bits f)) |}.

(** Three table rows: an implemented function and two that are not. *)
Definition sampleImplemented : funcPtr :=
  fun ctx =>
    ret (mkContext (ctx_name ctx) (ctx_params ctx) (ctx_caller ctx) (VInt 4)).

Definition samplePointers : list FunctionPointer :=
  [ mkFunctionPointer 0 "Random" (Some sampleImplemented);
    mkFunctionPointer 1 "PrintString" None;
    mkFunctionPointer 2 "GetTag" None ].

Definition sampleSignatures : list FunctionSignature :=
  [ mkFunctionSignature 0 kTypeInt [kTypeInt; kTypeVoid; kTypeVoid];
    mkFunctionSignature 1 kTypeVoid [kTypeString; kTypeVoid; kTypeVoid];
    mkFunctionSignature 2 kTypeString [kTypeObject; kTypeVoid; kTypeVoid] ].

Definition sampleDefaults : list FunctionDefaults :=
  [ mkFunctionDefaults 0 [None; None];
    mkFunctionDefaults 1 [None; None];
    mkFunctionDefaults 2 [Some (VObject None); None] ].

Definition sampleContext : FunctionContext :=
  mkContext "GetTag" [VObject (Some 2%positive); VInt 7] (Some 1%positive)
    (VString "").


(** The registrations the sample tables give. *)
Definition sampleRegistrations : list Registration :=
  match registerFunctions (H := sampleStrUtil) samplePointers
          sampleSignatures sampleDefaults with
  | Some regs => regs
  | None => []
  end.

(** Draws 3, 10, 17, ..., kept below 32768. *)
Definition sampleRand : RandState :=
  mkRand (fun i => (Z.of_nat i * 7 + 3) mod 32768) 0.

(** A call whose parameter is the object that stands for the caller, made
    by object 5, which has the invalid type. *)
Definition sampleSelfContext : FunctionContext :=
  mkContext "GetTag" [VObject (Some 4%positive)] (Some 5%positive)
    (VString "").

End NWN2.

(* ================================================================== *)
(** * Part II. Theorems                                                *)
(* ================================================================== *)

(** ** The deferred-action queue and the module lifecycle *)

Module Kotor2Facts.
Import Kotor2.

Local Open Scope string_scope.
Local Open Scope N_scope.

(** *** Filters, permutations and sorted lists *)

Lemma filter_none {A : Type} (f : A -> bool) (l : list A) :
  Forall (fun x => f x = false) l -> filter f l = [].
Proof.
  induction 1 as [|x l Hx _ IH]; simpl; [reflexivity|].
  now rewrite Hx.
Qed.

Lemma filter_all {A : Type} (f : A -> bool) (l : list A) :
  Forall (fun x => f x = true) l -> filter f l = l.
Proof.
  induction 1 as [|x l Hx _ IH]; simpl; [reflexivity|].
  now rewrite Hx, IH.
Qed.

Lemma filter_comm {A : Type} (f g : A -> bool) (l : list A) :
  filter f (filter g l) = filter g (filter f l).
Proof.
  induction l as [|x l IH]; simpl; [reflexivity|].
  destruct (g x) eqn:Hg, (f x) eqn:Hf; simpl;
    rewrite ?Hg, ?Hf, IH; reflexivity.
Qed.

Lemma filter_perm {A : Type} (f : A -> bool) (l l' : list A) :
  Permutation l l' -> Permutation (filter f l) (filter f l').
Proof.
  induction 1 as [|x l l' _ IH|x y l|l l' l'' _ IH1 _ IH2]; simpl.
  - constructor.
  - destruct (f x); [now constructor | assumption].
  - destruct (f x), (f y); try reflexivity; constructor.
  - now transitivity (filter f l').
Qed.

Lemma filter_sorted (f : Action -> bool) (q : ActionQueue) :
  StronglySorted ts_le q -> StronglySorted ts_le (filter f q).
Proof.
  induction 1 as [|a q _ IH Hall]; simpl; [constructor|].
  destruct (f a); [|assumption].
  constructor; [assumption|].
  rewrite Forall_forall in *. intros x Hx.
  apply filter_In in Hx. now apply Hall.
Qed.

(** *** [insert] *)

Lemma insert_perm (a : Action) (q : ActionQueue) :
  Permutation (insert a q) (a :: q).
Proof.
  induction q as [|b q IH]; simpl; [reflexivity|].
  destruct (action_lt a b); [reflexivity|].
  rewrite IH. apply perm_swap.
Qed.

Lemma insert_sorted (a : Action) (q : ActionQueue) :
  StronglySorted ts_le q -> StronglySorted ts_le (insert a q).
Proof.
  induction 1 as [|b q Hq IH Hall]; simpl.
  - repeat constructor.
  - unfold action_lt. destruct (N.ltb_spec (timestamp a) (timestamp b)) as [Hlt|Hge].
    + constructor; [now constructor|].
      constructor; [unfold ts_le; lia|].
      eapply Forall_impl; [|exact Hall].
      unfold ts_le. intros; lia.
    + constructor; [assumption|].
      eapply Permutation_Forall; [symmetry; apply insert_perm|].
      constructor; [exact Hge | assumption].
Qed.

(** Among the actions of one timestamp the new one comes last. *)
Lemma insert_at_time (t : N) (a : Action) (q : ActionQueue) :
  StronglySorted ts_le q ->
  filter (at_time t) (insert a q)
  = (filter (at_time t) q ++ (if at_time t a then [a] else []))%list.
Proof.
  induction 1 as [|b q Hq IH Hall].
  - simpl. destruct (at_time t a); reflexivity.
  - cbn [insert]. unfold action_lt.
    destruct (N.ltb_spec (timestamp a) (timestamp b)) as [Hlt|Hge].
    + destruct (at_time t a) eqn:Ha.
      * assert (Hnone : filter (at_time t) (b :: q) = []).
        { apply filter_none. unfold at_time in *.
          apply N.eqb_eq in Ha.
          constructor; [apply N.eqb_neq; lia|].
          eapply Forall_impl; [|exact Hall].
          unfold ts_le. intros x Hx. apply N.eqb_neq. lia. }
        cbn [filter]. rewrite Ha. cbn [filter] in Hnone. rewrite Hnone.
        reflexivity.
      * cbn [filter]. rewrite Ha. now rewrite app_nil_r.
    + cbn [filter]. rewrite IH.
      destruct (at_time t b); reflexivity.
Qed.

(** *** A sequence of [insert] calls *)

Lemma insertAll_sorted (l : list Action) (q : ActionQueue) :
  StronglySorted ts_le q -> StronglySorted ts_le (insertAll l q).
Proof.
  revert q. induction l as [|a l IH]; intros q Hq; simpl; [assumption|].
  apply IH. now apply insert_sorted.
Qed.

Lemma insertAll_perm (l : list Action) (q : ActionQueue) :
  Permutation (insertAll l q) (q ++ l).
Proof.
  revert q. induction l as [|a l IH]; intros q; simpl.
  - now rewrite app_nil_r.
  - rewrite IH, insert_perm. apply Permutation_middle.
Qed.

Lemma insertAll_at_time (t : N) (l : list Action) (q : ActionQueue) :
  StronglySorted ts_le q ->
  filter (at_time t) (insertAll l q)
  = (filter (at_time t) q ++ filter (at_time t) l)%list.
Proof.
  revert q. induction l as [|a l IH]; intros q Hq; simpl.
  - now rewrite app_nil_r.
  - rewrite IH by now apply insert_sorted.
    rewrite insert_at_time by assumption.
    rewrite <- app_assoc. destruct (at_time t a); reflexivity.
Qed.

(** *** [popReady] *)

(** On a queue in timestamp order the loop stops exactly where the ready
    actions end. *)
Lemma popReady_sorted (now : N) (q : ActionQueue) :
  StronglySorted ts_le q ->
  popReady now q = (filter (ready now) q, filter (pending now) q).
Proof.
  induction 1 as [|a q Hq IH Hall]; [reflexivity|].
  cbn [popReady filter].
  destruct (N.ltb_spec now (timestamp a)) as [Hlt|Hge].
  - assert (Ha : ready now a = false) by (apply N.leb_gt; exact Hlt).
    assert (Hr : filter (ready now) q = []).
    { apply filter_none. eapply Forall_impl; [|exact Hall].
      unfold ts_le, ready. intros x Hx. apply N.leb_gt. lia. }
    assert (Hp : filter (pending now) q = q).
    { apply filter_all. eapply Forall_impl; [|exact Hall].
      unfold ts_le, pending, ready. intros x Hx.
      apply negb_true_iff, N.leb_gt. lia. }
    unfold pending at 1. rewrite Ha, Hr, Hp. reflexivity.
  - assert (Ha : ready now a = true) by (apply N.leb_le; exact Hge).
    unfold pending at 1. rewrite Ha, IH. reflexivity.
Qed.

(** The actions taken and the actions left are the queue, cut in two. *)
Lemma popReady_split (now : N) (q : ActionQueue) :
  (fst (popReady now q) ++ snd (popReady now q))%list = q.
Proof.
  induction q as [|a q IH]; [reflexivity|].
  cbn [popReady]. destruct (now <? timestamp a); [reflexivity|].
  destruct (popReady now q) as [due rest]. cbn [fst snd app] in *.
  now f_equal.
Qed.

(** C1. For every sequence [l] of [insert] calls into the empty queue and
    every time [T], [popReady T] takes off the queue exactly the inserted
    actions with timestamp at most [T] (a permutation of that subsequence,
    a prefix of the queue), in ascending timestamp order, and among the
    actions of any one timestamp in the order of their insertion; what it
    leaves is the queue of the actions not yet due, in the same order. *)
Theorem popReady_returns_due_actions_in_stable_order
    (l : list Action) (T : N) :
  let q := insertAll l [] in
  let due := fst (popReady T q) in
  let rest := snd (popReady T q) in
  Permutation due (filter (ready T) l)
  /\ StronglySorted ts_le due
  /\ (forall t, filter (at_time t) due
                = filter (at_time t) (filter (ready T) l))
  /\ (due ++ rest)%list = q
  /\ Permutation rest (filter (pending T) l)
  /\ StronglySorted ts_le rest
  /\ (forall t, filter (at_time t) rest
                = filter (at_time t) (filter (pending T) l)).
Proof.
  intros q due rest.
  assert (Hq : StronglySorted ts_le q)
    by (apply insertAll_sorted; constructor).
  assert (Hperm : Permutation q l) by apply (insertAll_perm l []).
  assert (Hat : forall t, filter (at_time t) q = filter (at_time t) l)
    by (intros t; apply (insertAll_at_time t l []); constructor).
  pose proof (popReady_split T q) as Hsplit.
  subst due rest. rewrite (popReady_sorted T q Hq) in *. cbn [fst snd] in *.
  repeat split.
  - now apply filter_perm.
  - now apply filter_sorted.
  - intros t. now rewrite filter_comm, Hat, filter_comm.
  - exact Hsplit.
  - now apply filter_perm.
  - now apply filter_sorted.
  - intros t. now rewrite filter_comm, Hat, filter_comm.
Qed.

(** *** The module lifecycle *)

(** The phases of a tick that come before the safe point keep the area,
    the module name, the run state and the recorded target. *)
Lemma tickPhases_keeps (now : N) (m : Module) :
  getCurrentArea (tickPhases now m) = getCurrentArea m
  /\ _module (tickPhases now m) = _module m
  /\ _hasModule (tickPhases now m) = _hasModule m
  /\ _running (tickPhases now m) = _running m
  /\ _newModule (tickPhases now m) = _newModule m
  /\ _entryLocation (tickPhases now m) = _entryLocation m
  /\ _entryLocationType (tickPhases now m) = _entryLocationType m.
Proof.
  unfold tickPhases, handlePCMovement, handleActions, handleEvents,
    getCurrentArea.
  cbn [snd _delayedActions].
  destruct (popReady now (_delayedActions m)) as [due rest].
  cbn. repeat split; reflexivity.
Qed.

(** C2. With a module already loaded, [load] does not swap the module: it
    returns normally with the requested target recorded, and the area seen
    by [getCurrentArea], the module name, the load and run state, the info
    record and the player character are those of the module loaded
    before; they stay so through the event, action and movement phases of
    the next tick.  The replacement happens at the end of that tick: when
    the context is running and the target is a non-empty name that
    resolves, [tick] ends running the target module in its entry area,
    with no target left recorded. *)
Theorem load_while_loaded_is_deferred_to_tick
    (res : Resources) (m : Module) (module entryLocation : string)
    (entryLocationType : ObjectType) :
  isLoaded m = true ->
  exists m',
    load res module entryLocation entryLocationType m = Done m'
    /\ _newModule m' = module
    /\ getCurrentArea m' = getCurrentArea m
    /\ _module m' = _module m
    /\ isLoaded m' = isLoaded m
    /\ isRunning m' = isRunning m
    /\ _ifo m' = _ifo m
    /\ getPC m' = getPC m
    /\ _eventQueue m' = _eventQueue m
    /\ _delayedActions m' = _delayedActions m
    /\ (forall now,
          getCurrentArea (tickPhases now m') = getCurrentArea m
          /\ _module (tickPhases now m') = _module m)
    /\ (forall now ifo,
          isRunning m = true ->
          module <> EmptyString ->
          res module = Some ifo ->
          exists m'',
            tick res now m' = Done m''
            /\ _module m'' = module
            /\ getCurrentArea m'' = Some (mkArea (ifo_entryArea ifo))
            /\ isRunning m'' = true
            /\ _newModule m'' = EmptyString).
Proof.
  intros Hloaded.
  exists (changeModule module entryLocation entryLocationType m).
  split; [unfold load; now rewrite Hloaded|].
  do 9 (split; [reflexivity|]). split.
  - intros now.
    destruct (tickPhases_keeps now
                (changeModule module entryLocation entryLocationType m))
      as (Harea & Hmod & _).
    split; assumption.
  - intros now ifo Hrun Hname Hres.
    set (m' := changeModule module entryLocation entryLocationType m).
    destruct (tickPhases_keeps now m')
      as (_ & _ & _ & _ & Hnew & Hloc & Hty).
    unfold tick. unfold isRunning in *. cbn [m' changeModule _running].
    rewrite Hrun. unfold replaceModule.
    rewrite Hnew. cbn [m' changeModule _newModule].
    destruct (String.eqb_spec module EmptyString) as [He|_];
      [contradiction|].
    unfold loadModule. rewrite Hres. unfold enter.
    cbn [_hasModule _running _ifo].
    eexists. repeat split; reflexivity.
Qed.

(** The statement of C2 at the sample module: "m2" requested while "m1"
    runs. *)
Lemma load_while_loaded_is_deferred_to_tick_witness :
  isLoaded sampleRunning = true
  /\ exists m',
      load sampleResources "m2" EmptyString 0%N sampleRunning = Done m'
      /\ _newModule m' = "m2"%string
      /\ getCurrentArea m' = getCurrentArea sampleRunning
      /\ _module m' = _module sampleRunning
      /\ isLoaded m' = isLoaded sampleRunning
      /\ isRunning m' = isRunning sampleRunning
      /\ _ifo m' = _ifo sampleRunning
      /\ getPC m' = getPC sampleRunning
      /\ _eventQueue m' = _eventQueue sampleRunning
      /\ _delayedActions m' = _delayedActions sampleRunning
      /\ (forall now,
            getCurrentArea (tickPhases now m') = getCurrentArea sampleRunning
            /\ _module (tickPhases now m') = _module sampleRunning)
      /\ (forall now ifo,
            isRunning sampleRunning = true ->
            "m2"%string <> EmptyString ->
            sampleResources "m2" = Some ifo ->
            exists m'',
              tick sampleResources now m' = Done m''
              /\ _module m'' = "m2"%string
              /\ getCurrentArea m'' = Some (mkArea (ifo_entryArea ifo))
              /\ isRunning m'' = true
              /\ _newModule m'' = EmptyString).
Proof.
  split; [reflexivity|].
  apply (load_while_loaded_is_deferred_to_tick sampleResources sampleRunning
           "m2" EmptyString 0%N).
  reflexivity.
Defined.

End Kotor2Facts.

(** ** The NWN2 engine functions *)

Module NWN2Facts.
Import NWN2.

Local Open Scope string_scope.
Local Open Scope Z_scope.

(** *** Running [jumpTo] symbolically *)

(** Reading a world after one object was written. *)
Lemma pc_setObject (o : ObjPtr) (v : Object) (w : World) :
  pc (setObject o v w) = pc w.
Proof. reflexivity. Qed.

Lemma resRef_setObject (o : ObjPtr) (v : Object) (w : World) (a : AreaPtr) :
  resRef (setObject o v w) a = resRef w a.
Proof. reflexivity. Qed.

Lemma objects_setObject_same (o : ObjPtr) (v : Object) (w : World) :
  objects (setObject o v w) o = v.
Proof. cbn. now rewrite Pos.eqb_refl. Qed.

Lemma objects_setObject_other (o : ObjPtr) (v : Object) (w : World)
    (p : ObjPtr) :
  p <> o -> objects (setObject o v w) p = objects w p.
Proof. intros Hp. cbn. apply Pos.eqb_neq in Hp. now rewrite Hp. Qed.

(** The monad, step by step. *)
Lemma prepend_nil {A : Type} (r : list Effect * Outcome A) :
  prepend [] r = r.
Proof. now destruct r. Qed.

Lemma bind_ret {A B : Type} (a : A) (k : A -> M B) (w : World) :
  bind (ret a) k w = k a w.
Proof. unfold bind, ret. apply prepend_nil. Qed.

Lemma bind_gets {A B : Type} (f : World -> A) (k : A -> M B) (w : World) :
  bind (gets f) k w = k (f w) w.
Proof. unfold bind, gets. apply prepend_nil. Qed.

Lemma bind_emit {B : Type} (e : Effect) (k : unit -> M B) (w : World) :
  bind (emit e) k w = prepend [e] (k tt w).
Proof. reflexivity. Qed.

Lemma bind_update {B : Type} (o : ObjPtr) (f : Object -> Object)
    (k : unit -> M B) (w : World) :
  bind (update o f) k w = k tt (setObject o (f (objects w o)) w).
Proof. unfold bind, update. apply prepend_nil. Qed.

Lemma bind_fault {A B : Type} (k : A -> M B) (w : World) :
  bind (@fault A) k w = ([], Fault).
Proof. reflexivity. Qed.

Lemma bind_bind {A B C : Type} (m : M A) (k : A -> M B) (k' : B -> M C)
    (w : World) :
  bind (bind m k) k' w = bind m (fun a => bind (k a) k') w.
Proof.
  unfold bind. destruct (m w) as [t [a w'|]]; [|reflexivity].
  destruct (k a w') as [t' [b w''|]]; unfold prepend; cbn [fst snd].
  - destruct (k' b w'') as [t'' r]. cbn [fst snd].
    now rewrite app_assoc.
  - reflexivity.
Qed.

(** The two ways a call that completes ends. *)
Lemma notify_run (c : bool) (w : World) :
  (if c then movedPC else ret tt) w
  = (if c then [MovedPC] else [], Done tt w).
Proof. destruct c; reflexivity. Qed.

Lemma update_run (o : ObjPtr) (f : Object -> Object) (w : World) :
  update o f w = ([], Done tt (setObject o (f (objects w o)) w)).
Proof. reflexivity. Qed.

Lemma emit_run (e : Effect) (w : World) : emit e w = ([e], Done tt w).
Proof. reflexivity. Qed.

Ltac use_equation :=
  match goal with
  | H : ?l = _ |- context [?l] => rewrite H
  end.

(** Running a call from the first statement on, deciding each test with
    the equations at hand. *)
Ltac exec :=
  unfold jumpTo, getArea, getResRef, getPC, hide, show, loadModel,
    unloadModel, setArea, setPosition, lockFrame, unlockFrame, warning;
  repeat first
    [ rewrite bind_bind
    | rewrite bind_gets
    | rewrite bind_emit
    | rewrite bind_update
    | rewrite bind_ret
    | rewrite bind_fault
    | rewrite notify_run
    | rewrite update_run
    | rewrite emit_run
    | rewrite pc_setObject
    | rewrite resRef_setObject
    | rewrite objects_setObject_same
    | rewrite Pos.eqb_refl
    | rewrite String.eqb_refl
    | use_equation
    | progress cbn [isNull orb negb ptr_eqb derefArea prepend fst snd app
                    _tag _type _area _position _visible _modelLoaded] ].

Ltac moved_object :=
  unfold movedTo, placed;
  rewrite ?pc_setObject, ?objects_setObject_same;
  repeat split; try reflexivity;
  let p := fresh "p" in
  let Hp := fresh "Hp" in
  intros p Hp; now rewrite ?objects_setObject_other by exact Hp.

Ltac final_world := eexists; split; [reflexivity | moved_object].

(** The error path: no area on one side. *)
Lemma jumpTo_path_error (w : World) (o : ObjPtr) (area : option AreaPtr)
    (x y z : float) :
  _area (objects w o) = None \/ area = None ->
  jumpTo o area x y z w
  = ([Warning ("Functions::jumpTo(): No area?!? ("
               ++ fmt_bool (negb (isNull (_area (objects w o)))) ++ ", "
               ++ fmt_bool (negb (isNull area)) ++ ")")],
     Done tt w).
Proof.
  intros Hnull.
  assert (Htest : isNull (_area (objects w o)) || isNull area = true).
  { destruct Hnull as [H|H]; rewrite H; cbn [isNull];
      [reflexivity | apply orb_true_r]. }
  unfold jumpTo, getArea. rewrite bind_gets, Htest. reflexivity.
Qed.

(** The position-only move: the object is already in the area. *)
Lemma jumpTo_path_same (w : World) (o : ObjPtr) (a : AreaPtr) (x y z : float) :
  _area (objects w o) = Some a ->
  traceOf (jumpTo o (Some a) x y z w)
  = LockFrame :: SetPosition o x y z :: UnlockFrame :: notification w o
  /\ exists w',
      snd (jumpTo o (Some a) x y z w) = Done tt w'
      /\ movedTo w w' o
           (placed (objects w o) a x y z (_visible (objects w o))
              (_modelLoaded (objects w o))).
Proof.
  intros H. unfold traceOf, notification. split.
  - exec. reflexivity.
  - exec. final_world.
Qed.

(** A move between areas with no player character. *)
Lemma jumpTo_path_no_pc (w : World) (o : ObjPtr) (from to : AreaPtr)
    (x y z : float) :
  _area (objects w o) = Some from ->
  from <> to ->
  pc w = None ->
  traceOf (jumpTo o (Some to) x y z w)
  = ([LockFrame; moveWarning w from to; SetArea o (Some to);
      SetPosition o x y z; UnlockFrame] ++ notification w o)%list
  /\ exists w',
      snd (jumpTo o (Some to) x y z w) = Done tt w'
      /\ movedTo w w' o
           (placed (objects w o) to x y z (_visible (objects w o))
              (_modelLoaded (objects w o))).
Proof.
  intros H Hne Hpc. apply Pos.eqb_neq in Hne. unfold traceOf. split.
  - unfold notification. exec. reflexivity.
  - exec. final_world.
Qed.

(** A move out of the area whose resource reference is that of the player
    character's area. *)
Lemma jumpTo_path_leave (w : World) (o pcp : ObjPtr) (from to pa : AreaPtr)
    (x y z : float) :
  _area (objects w o) = Some from ->
  from <> to ->
  pc w = Some pcp ->
  _area (objects w pcp) = Some pa ->
  resRef w from = resRef w pa ->
  traceOf (jumpTo o (Some to) x y z w)
  = ([LockFrame; moveWarning w from to; Hide o; UnloadModel o;
      SetArea o (Some to); SetPosition o x y z; UnlockFrame]
     ++ notification w o)%list
  /\ exists w',
      snd (jumpTo o (Some to) x y z w) = Done tt w'
      /\ movedTo w w' o (placed (objects w o) to x y z false false).
Proof.
  intros H Hne Hpc Hpa Hrr. apply Pos.eqb_neq in Hne.
  unfold traceOf, moveWarning, notification. split.
  - exec. reflexivity.
  - exec. final_world.
Qed.

(** A move into the area whose resource reference is that of the player
    character's area, from an area with another one. *)
Lemma jumpTo_path_enter (w : World) (o pcp : ObjPtr) (from to pa : AreaPtr)
    (x y z : float) :
  _area (objects w o) = Some from ->
  from <> to ->
  pc w = Some pcp ->
  _area (objects w pcp) = Some pa ->
  resRef w from <> resRef w pa ->
  resRef w to = resRef w pa ->
  traceOf (jumpTo o (Some to) x y z w)
  = ([LockFrame; moveWarning w from to; LoadModel o; Show o;
      SetArea o (Some to); SetPosition o x y z; UnlockFrame]
     ++ notification w o)%list
  /\ exists w',
      snd (jumpTo o (Some to) x y z w) = Done tt w'
      /\ movedTo w w' o (placed (objects w o) to x y z true true).
Proof.
  intros H Hne Hpc Hpa Hfrom Hto.
  apply Pos.eqb_neq in Hne. apply String.eqb_neq in Hfrom.
  unfold traceOf, moveWarning, notification. split.
  - exec. reflexivity.
  - exec. final_world.
Qed.

(** A move between two areas neither of which has the resource reference
    of the player character's area. *)
Lemma jumpTo_path_elsewhere (w : World) (o pcp : ObjPtr) (from to pa : AreaPtr)
    (x y z : float) :
  _area (objects w o) = Some from ->
  from <> to ->
  pc w = Some pcp ->
  _area (objects w pcp) = Some pa ->
  resRef w from <> resRef w pa ->
  resRef w to <> resRef w pa ->
  traceOf (jumpTo o (Some to) x y z w)
  = ([LockFrame; moveWarning w from to; SetArea o (Some to);
      SetPosition o x y z; UnlockFrame] ++ notification w o)%list
  /\ exists w',
      snd (jumpTo o (Some to) x y z w) = Done tt w'
      /\ movedTo w w' o
           (placed (objects w o) to x y z (_visible (objects w o))
              (_modelLoaded (objects w o))).
Proof.
  intros H Hne Hpc Hpa Hfrom Hto.
  apply Pos.eqb_neq in Hne.
  apply String.eqb_neq in Hfrom. apply String.eqb_neq in Hto.
  unfold traceOf, moveWarning, notification. split.
  - exec. reflexivity.
  - exec. final_world.
Qed.

(** A move between areas while the player character is in no area: the
    call takes the frame lock, warns, and dereferences the null area of
    the player character. *)
Lemma jumpTo_path_fault (w : World) (o pcp : ObjPtr) (from to : AreaPtr)
    (x y z : float) :
  _area (objects w o) = Some from ->
  from <> to ->
  pc w = Some pcp ->
  _area (objects w pcp) = None ->
  jumpTo o (Some to) x y z w
  = ([LockFrame; moveWarning w from to], Fault).
Proof.
  intros H Hne Hpc Hpa. apply Pos.eqb_neq in Hne.
  unfold moveWarning. exec. reflexivity.
Qed.

(** What a call does once the sanity check has passed, provided it stays in
    the area or the player character, if any, is in an area: it takes the
    frame lock first, then warns, hides or shows and updates the area, then
    updates the position, releases the lock and notifies; the object ends
    in the destination area at the position given. *)
Lemma jumpTo_completes (w : World) (o : ObjPtr) (from to : AreaPtr)
    (x y z : float) :
  _area (objects w o) = Some from ->
  from = to \/ pcHasArea w ->
  exists mid w',
    traceOf (jumpTo o (Some to) x y z w)
    = (LockFrame :: mid ++ [SetPosition o x y z; UnlockFrame]
       ++ notification w o)%list
    /\ forallb isInner mid = true
    /\ snd (jumpTo o (Some to) x y z w) = Done tt w'
    /\ pc w' = pc w
    /\ _area (objects w' o) = Some to
    /\ _position (objects w' o) = (x, y, z)
    /\ (forall p, p <> o -> objects w' p = objects w p).
Proof.
  intros H Hok.
  assert (Hgoal : forall mid v,
    forallb isInner mid = true ->
    _area v = Some to -> _position v = (x, y, z) ->
    (traceOf (jumpTo o (Some to) x y z w)
     = (LockFrame :: mid ++ [SetPosition o x y z; UnlockFrame]
        ++ notification w o)%list
     /\ exists w', snd (jumpTo o (Some to) x y z w) = Done tt w'
                   /\ movedTo w w' o v) ->
    exists mid w',
      traceOf (jumpTo o (Some to) x y z w)
      = (LockFrame :: mid ++ [SetPosition o x y z; UnlockFrame]
         ++ notification w o)%list
      /\ forallb isInner mid = true
      /\ snd (jumpTo o (Some to) x y z w) = Done tt w'
      /\ pc w' = pc w
      /\ _area (objects w' o) = Some to
      /\ _position (objects w' o) = (x, y, z)
      /\ (forall p, p <> o -> objects w' p = objects w p)).
  { intros mid v Hmid Ha Hp (Ht & w' & Hw & Hpc & Hv & Hrest & _).
    exists mid, w'. rewrite Hv. repeat split; assumption. }
  destruct (Pos.eq_dec from to) as [->|Hne].
  { eapply (Hgoal []); [| | |apply jumpTo_path_same, H]; reflexivity. }
  destruct (pc w) as [pcp|] eqn:Hpc.
  2:{ eapply (Hgoal [moveWarning w from to; SetArea o (Some to)]);
        [| | |now apply jumpTo_path_no_pc]; reflexivity. }
  destruct (_area (objects w pcp)) as [pa|] eqn:Hpa.
  2:{ destruct Hok as [Heq|Hpcarea]; [contradiction|].
      now destruct (Hpcarea pcp Hpc). }
  destruct (String.eqb_spec (resRef w from) (resRef w pa)) as [Hfrom|Hfrom].
  { eapply (Hgoal [moveWarning w from to; Hide o; UnloadModel o;
                   SetArea o (Some to)]);
      [| | |now apply jumpTo_path_leave with (pcp := pcp) (pa := pa)];
      reflexivity. }
  destruct (String.eqb_spec (resRef w to) (resRef w pa)) as [Hto|Hto].
  { eapply (Hgoal [moveWarning w from to; LoadModel o; Show o;
                   SetArea o (Some to)]);
      [| | |now apply jumpTo_path_enter with (pcp := pcp) (pa := pa)];
      reflexivity. }
  eapply (Hgoal [moveWarning w from to; SetArea o (Some to)]);
    [| | |now apply jumpTo_path_elsewhere with (pcp := pcp) (pa := pa)];
    reflexivity.
Qed.

Lemma areaName_injective : distinctResRefs sampleWorld.
Proof.
  unfold distinctResRefs. cbn [resRef sampleWorld].
  induction a as [a IH|a IH|]; intros [b|b|] Hab; cbn in Hab;
    try discriminate; try reflexivity;
    injection Hab as Hab; f_equal; now apply IH.
Qed.

Lemma filter_inner (f : Effect -> bool) (mid : list Effect) :
  (forall e, isInner e = true -> f e = false) ->
  forallb isInner mid = true -> filter f mid = [].
Proof.
  intros Hf. induction mid as [|e mid IH]; [reflexivity|].
  cbn [forallb filter]. intros Hmid.
  apply andb_true_iff in Hmid as [He Hmid].
  now rewrite (Hf e He), IH.
Qed.

(** C3. When the object has no area or the destination is null, the call
    reports it with one warning and returns; the world it returns is the
    world it was given, so no object's area, position or visibility has
    changed, nothing was called that changes an object, and the frame
    lock was not taken. *)
Theorem jumpTo_without_area_warns_and_changes_nothing
    (w : World) (o : ObjPtr) (area : option AreaPtr) (x y z : float) :
  _area (objects w o) = None \/ area = None ->
  exists msg,
    traceOf (jumpTo o area x y z w) = [Warning msg]
    /\ snd (jumpTo o area x y z w) = Done tt w
    /\ count isLock (traceOf (jumpTo o area x y z w)) = 0%nat
    /\ count isMutation (traceOf (jumpTo o area x y z w)) = 0%nat.
Proof.
  intros Hnull. rewrite (jumpTo_path_error w o area x y z Hnull).
  eexists. repeat split.
Qed.

Lemma jumpTo_without_area_warns_and_changes_nothing_witness :
  (_area (objects sampleWorld 3%positive) = None
   \/ Some 1%positive = @None AreaPtr)
  /\ exists msg,
      traceOf (jumpTo 3%positive (Some 1%positive) (sampleFloat 1)
                 (sampleFloat 2) (sampleFloat 3) sampleWorld)
      = [Warning msg]
      /\ snd (jumpTo 3%positive (Some 1%positive) (sampleFloat 1)
                (sampleFloat 2) (sampleFloat 3) sampleWorld)
         = Done tt sampleWorld
      /\ count isLock
           (traceOf (jumpTo 3%positive (Some 1%positive) (sampleFloat 1)
                       (sampleFloat 2) (sampleFloat 3) sampleWorld)) = 0%nat
      /\ count isMutation
           (traceOf (jumpTo 3%positive (Some 1%positive) (sampleFloat 1)
                       (sampleFloat 2) (sampleFloat 3) sampleWorld)) = 0%nat.
Proof.
  split; [left; reflexivity|].
  apply (@jumpTo_without_area_warns_and_changes_nothing sampleWorld
           3%positive (Some 1%positive) (sampleFloat 1) (sampleFloat 2)
           (sampleFloat 3)).
  left; reflexivity.
Defined.

(** When no two areas have the same resource reference, the comparison of
    resource references is a comparison of areas.  Then, in a move between
    two different areas: an object that leaves the presented area
    (the area the player character is in) is hidden and its model unloaded,
    each exactly once, and nothing is shown or loaded; an object that
    enters the presented area has its model loaded and is shown, each
    exactly once, and nothing is hidden or unloaded; an object that moves
    between two areas neither of which is the presented one is neither
    hidden nor shown, no model is loaded or unloaded, and its visibility
    and model are what they were. *)
Lemma jumpTo_hides_or_shows_by_presented_area
    (w : World) (o : ObjPtr) (from to : AreaPtr) (x y z : float) :
  _area (objects w o) = Some from ->
  from <> to ->
  distinctResRefs w ->
  let r := jumpTo o (Some to) x y z w in
  (presentedArea w = Some from ->
     filter isVisual (traceOf r) = [Hide o; UnloadModel o]
     /\ exists w', snd r = Done tt w'
                   /\ _visible (objects w' o) = false
                   /\ _modelLoaded (objects w' o) = false)
  /\ (presentedArea w = Some to ->
       filter isVisual (traceOf r) = [LoadModel o; Show o]
       /\ exists w', snd r = Done tt w'
                     /\ _visible (objects w' o) = true
                     /\ _modelLoaded (objects w' o) = true)
  /\ (presentedArea w <> Some from ->
       presentedArea w <> Some to ->
       filter isVisual (traceOf r) = []
       /\ forall w', snd r = Done tt w' ->
                     _visible (objects w' o) = _visible (objects w o)
                     /\ _modelLoaded (objects w' o)
                        = _modelLoaded (objects w o)).
Proof.
  intros H Hne Hdistinct r. subst r.
  assert (Hnotif : filter isVisual (notification w o) = []).
  { unfold notification. now destruct (ptr_eqb (Some o) (pc w)). }
  unfold presentedArea. split; [|split].
  - intros Hpres. destruct (pc w) as [pcp|] eqn:Hpc; [|discriminate].
    destruct (jumpTo_path_leave w o pcp from to from x y z H Hne Hpc Hpres eq_refl)
      as (Ht & w' & Hw & _ & Hv & _).
    rewrite Ht, filter_app, Hnotif. split; [reflexivity|].
    exists w'. rewrite Hv. repeat split; assumption.
  - intros Hpres. destruct (pc w) as [pcp|] eqn:Hpc; [|discriminate].
    assert (Hfrom : resRef w from <> resRef w to)
      by (intros Heq; apply Hne, Hdistinct, Heq).
    destruct (jumpTo_path_enter w o pcp from to to x y z H Hne Hpc Hpres Hfrom eq_refl)
      as (Ht & w' & Hw & _ & Hv & _).
    rewrite Ht, filter_app, Hnotif. split; [reflexivity|].
    exists w'. rewrite Hv. repeat split; assumption.
  - intros Hnfrom Hnto. destruct (pc w) as [pcp|] eqn:Hpc.
    + destruct (_area (objects w pcp)) as [pa|] eqn:Hpa.
      * assert (Hfrom : resRef w from <> resRef w pa).
        { intros Heq. apply Hnfrom. f_equal. symmetry.
          apply Hdistinct, Heq. }
        assert (Hto : resRef w to <> resRef w pa).
        { intros Heq. apply Hnto. f_equal. symmetry.
          apply Hdistinct, Heq. }
        destruct (jumpTo_path_elsewhere w o pcp from to pa x y z H Hne Hpc Hpa Hfrom Hto)
          as (Ht & w' & Hw & _ & Hv & _).
        rewrite Ht, filter_app, Hnotif. split; [reflexivity|].
        intros w'' Hw''. rewrite Hw in Hw''. injection Hw'' as <-.
        rewrite Hv. split; reflexivity.
      * rewrite (jumpTo_path_fault w o pcp from to x y z H Hne Hpc Hpa).
        split; [reflexivity|]. intros w' Hw'. discriminate Hw'.
    + destruct (jumpTo_path_no_pc w o from to x y z H Hne Hpc)
        as (Ht & w' & Hw & _ & Hv & _).
      rewrite Ht, filter_app, Hnotif. split; [reflexivity|].
      intros w'' Hw''. rewrite Hw in Hw''. injection Hw'' as <-.
      rewrite Hv. split; reflexivity.
Qed.

(** At the sample world, where every area has its own resource reference:
    object 2 moves from area 2 into area 1, where the player character
    is. *)
Lemma jumpTo_hides_or_shows_by_presented_area_witness :
  _area (objects sampleWorld 2%positive) = Some 2%positive
  /\ 2%positive <> 1%positive
  /\ distinctResRefs sampleWorld
  /\ filter isVisual
       (traceOf (jumpTo 2%positive (Some 1%positive) (sampleFloat 1)
                   (sampleFloat 2) (sampleFloat 3) sampleWorld))
     = [LoadModel 2%positive; Show 2%positive].
Proof.
  split; [reflexivity|]. split; [discriminate|].
  split; [exact areaName_injective|].
  apply (@jumpTo_hides_or_shows_by_presented_area sampleWorld
           2%positive 2%positive 1%positive
           (sampleFloat 1) (sampleFloat 2) (sampleFloat 3) eq_refl).
  - discriminate.
  - exact areaName_injective.
  - reflexivity.
Defined.

(** When the call completes the object is in the destination area at the
    position given, also when it was in that area already. *)
Lemma jumpTo_moves_when_completing (w : World) (o : ObjPtr)
    (from to : AreaPtr) (x y z : float) :
  _area (objects w o) = Some from ->
  from = to \/ pcHasArea w ->
  exists w',
    snd (jumpTo o (Some to) x y z w) = Done tt w'
    /\ _area (objects w' o) = Some to
    /\ _position (objects w' o) = (x, y, z).
Proof.
  intros H Hok.
  destruct (jumpTo_completes w o from to x y z H Hok)
    as (mid & w' & _ & _ & Hw & _ & Ha & Hp & _).
  now exists w'.
Qed.

(** When the call completes the frame lock was taken once, before anything
    else, and released once, right after the position update. *)
Lemma jumpTo_lock_paired_when_completing (w : World) (o : ObjPtr)
    (from to : AreaPtr) (x y z : float) :
  _area (objects w o) = Some from ->
  from = to \/ pcHasArea w ->
  let t := traceOf (jumpTo o (Some to) x y z w) in
  count isLock t = 1%nat
  /\ count isUnlock t = 1%nat
  /\ exists mid,
      t = (LockFrame :: mid ++ [SetPosition o x y z; UnlockFrame]
           ++ notification w o)%list
      /\ count isLock mid = 0%nat /\ count isUnlock mid = 0%nat
      /\ count isMutation (notification w o) = 0%nat.
Proof.
  intros H Hok t. subst t.
  destruct (jumpTo_completes w o from to x y z H Hok)
    as (mid & w' & Ht & Hmid & _).
  assert (Hl : filter isLock mid = [])
    by (apply filter_inner; [now intros []|exact Hmid]).
  assert (Hu : filter isUnlock mid = [])
    by (apply filter_inner; [now intros []|exact Hmid]).
  assert (Hn : forall f, f MovedPC = false ->
                         filter f (notification w o) = []).
  { intros f Hf. unfold notification.
    destruct (ptr_eqb (Some o) (pc w)); cbn; now rewrite ?Hf. }
  rewrite Ht. unfold count. cbn [filter isLock isUnlock].
  rewrite !filter_app, Hl, Hu, !Hn by reflexivity.
  repeat split. exists mid. rewrite Hl, Hu. repeat split.
Qed.

(** C5. The object has an area and the destination is not null, yet the
    object is not moved: when the move is between two areas and the player
    character is in no area, the call reads the resource reference of that
    null area and has no normal return; no area or position update was
    made before. *)
Theorem jumpTo_faults_unmoved_when_pc_has_no_area
    (w : World) (o pcp : ObjPtr) (from to : AreaPtr) (x y z : float) :
  _area (objects w o) = Some from ->
  from <> to ->
  pc w = Some pcp ->
  _area (objects w pcp) = None ->
  snd (jumpTo o (Some to) x y z w) = Fault
  /\ worldOf (jumpTo o (Some to) x y z w) = None
  /\ count isMutation (traceOf (jumpTo o (Some to) x y z w)) = 0%nat.
Proof.
  intros H Hne Hpc Hpa.
  rewrite (jumpTo_path_fault w o pcp from to x y z H Hne Hpc Hpa).
  repeat split.
Qed.

Lemma jumpTo_faults_unmoved_when_pc_has_no_area_witness :
  _area (objects sampleWorldLimbo 2%positive) = Some 2%positive
  /\ 2%positive <> 1%positive
  /\ pc sampleWorldLimbo = Some 3%positive
  /\ _area (objects sampleWorldLimbo 3%positive) = None
  /\ snd (jumpTo 2%positive (Some 1%positive) (sampleFloat 1)
            (sampleFloat 2) (sampleFloat 3) sampleWorldLimbo) = Fault
  /\ worldOf (jumpTo 2%positive (Some 1%positive) (sampleFloat 1)
                (sampleFloat 2) (sampleFloat 3) sampleWorldLimbo) = None
  /\ count isMutation
       (traceOf (jumpTo 2%positive (Some 1%positive) (sampleFloat 1)
                   (sampleFloat 2) (sampleFloat 3) sampleWorldLimbo))
     = 0%nat.
Proof.
  split; [reflexivity|]. split; [discriminate|].
  split; [reflexivity|]. split; [reflexivity|].
  apply (@jumpTo_faults_unmoved_when_pc_has_no_area sampleWorldLimbo
           2%positive 3%positive 2%positive 1%positive
           (sampleFloat 1) (sampleFloat 2) (sampleFloat 3));
    [reflexivity | discriminate | reflexivity | reflexivity].
Defined.

(** C6. The frame lock is taken and not released: when the move is
    between two areas and the player character is in no area, the call
    takes the lock, warns, and has no normal return; [unlockFrame] is
    never reached. *)
Theorem jumpTo_keeps_frame_lock_when_pc_has_no_area
    (w : World) (o pcp : ObjPtr) (from to : AreaPtr) (x y z : float) :
  _area (objects w o) = Some from ->
  from <> to ->
  pc w = Some pcp ->
  _area (objects w pcp) = None ->
  traceOf (jumpTo o (Some to) x y z w) = [LockFrame; moveWarning w from to]
  /\ count isLock (traceOf (jumpTo o (Some to) x y z w)) = 1%nat
  /\ count isUnlock (traceOf (jumpTo o (Some to) x y z w)) = 0%nat.
Proof.
  intros H Hne Hpc Hpa.
  rewrite (jumpTo_path_fault w o pcp from to x y z H Hne Hpc Hpa).
  repeat split.
Qed.

Lemma jumpTo_keeps_frame_lock_when_pc_has_no_area_witness :
  _area (objects sampleWorldLimbo 2%positive) = Some 2%positive
  /\ 2%positive <> 1%positive
  /\ pc sampleWorldLimbo = Some 3%positive
  /\ _area (objects sampleWorldLimbo 3%positive) = None
  /\ traceOf (jumpTo 2%positive (Some 1%positive) (sampleFloat 1)
                (sampleFloat 2) (sampleFloat 3) sampleWorldLimbo)
     = [LockFrame; moveWarning sampleWorldLimbo 2%positive 1%positive]
  /\ count isLock
       (traceOf (jumpTo 2%positive (Some 1%positive) (sampleFloat 1)
                   (sampleFloat 2) (sampleFloat 3) sampleWorldLimbo))
     = 1%nat
  /\ count isUnlock
       (traceOf (jumpTo 2%positive (Some 1%positive) (sampleFloat 1)
                   (sampleFloat 2) (sampleFloat 3) sampleWorldLimbo))
     = 0%nat.
Proof.
  split; [reflexivity|]. split; [discriminate|].
  split; [reflexivity|]. split; [reflexivity|].
  apply (@jumpTo_keeps_frame_lock_when_pc_has_no_area sampleWorldLimbo
           2%positive 3%positive 2%positive 1%positive
           (sampleFloat 1) (sampleFloat 2) (sampleFloat 3));
    [reflexivity | discriminate | reflexivity | reflexivity].
Defined.

Lemma ptr_eqb_true (p : ObjPtr) (q : option ObjPtr) :
  ptr_eqb (Some p) q = true <-> q = Some p.
Proof.
  destruct q as [q|]; cbn [ptr_eqb].
  - rewrite Pos.eqb_eq. split; [now intros ->|now intros [= ->]].
  - split; discriminate.
Qed.

(** C7. After a call that passed the sanity check and returned, the module
    was notified that the player character moved if and only if the object
    moved is the player character; in the trace of the call the
    notification, when there is one, is the last effect and comes right
    after the release of the frame lock, which happens once and not
    before. *)
Theorem jumpTo_notifies_pc_move_after_unlock
    (w w' : World) (o : ObjPtr) (from to : AreaPtr) (x y z : float) :
  _area (objects w o) = Some from ->
  snd (jumpTo o (Some to) x y z w) = Done tt w' ->
  let t := traceOf (jumpTo o (Some to) x y z w) in
  (In MovedPC t <-> pc w = Some o)
  /\ exists pre,
      t = (pre ++ UnlockFrame
               :: (if ptr_eqb (Some o) (pc w) then [MovedPC] else []))%list
      /\ count isMovedPC pre = 0%nat
      /\ count isUnlock pre = 0%nat.
Proof.
  intros H Hdone t. subst t.
  assert (Hok : from = to \/ pcHasArea w).
  { destruct (Pos.eq_dec from to) as [Heq|Hne]; [now left|right].
    intros p Hp Hnone.
    rewrite (jumpTo_path_fault w o p from to x y z H Hne Hp Hnone) in Hdone.
    discriminate Hdone. }
  destruct (jumpTo_completes w o from to x y z H Hok)
    as (mid & w'' & Ht & Hmid & _).
  assert (Hm : filter isMovedPC mid = [])
    by (apply filter_inner; [now intros []|exact Hmid]).
  assert (Hu : filter isUnlock mid = [])
    by (apply filter_inner; [now intros []|exact Hmid]).
  assert (Hpre : ~ In MovedPC (LockFrame :: mid ++ [SetPosition o x y z])).
  { intros Hin.
    assert (Hf : In MovedPC
                   (filter isMovedPC (LockFrame :: mid ++ [SetPosition o x y z])))
      by (apply filter_In; split; [exact Hin|reflexivity]).
    cbn [filter isMovedPC] in Hf. rewrite filter_app, Hm in Hf.
    exact Hf. }
  assert (Hshape :
    traceOf (jumpTo o (Some to) x y z w)
    = ((LockFrame :: mid ++ [SetPosition o x y z]) ++ UnlockFrame
         :: (if ptr_eqb (Some o) (pc w) then [MovedPC] else []))%list).
  { rewrite Ht. unfold notification. cbn [app].
    now rewrite <- app_assoc. }
  split.
  - rewrite Hshape, in_app_iff. rewrite <- ptr_eqb_true.
    destruct (ptr_eqb (Some o) (pc w)); cbn [In]; split.
    + reflexivity.
    + intros _. right. right. left. reflexivity.
    + intros [Hin|[Hd|[]]]; [contradiction | discriminate Hd].
    + discriminate.
  - exists (LockFrame :: mid ++ [SetPosition o x y z]).
    split; [exact Hshape|]. unfold count.
    cbn [filter isMovedPC isUnlock]. rewrite !filter_app, Hm, Hu.
    split; reflexivity.
Qed.

(** C7 at the sample world: the player character itself moves from area 1
    to area 2. *)
Lemma jumpTo_notifies_pc_move_after_unlock_witness :
  _area (objects sampleWorld 1%positive) = Some 1%positive
  /\ In MovedPC
       (traceOf (jumpTo 1%positive (Some 2%positive) (sampleFloat 1)
                   (sampleFloat 2) (sampleFloat 3) sampleWorld)).
Proof.
  split; [reflexivity|].
  apply (@jumpTo_notifies_pc_move_after_unlock sampleWorld
           (setObject 1%positive
              (mkObject "pc" (kObjectTypeOther 1) (Some 2%positive)
                 (sampleFloat 1, sampleFloat 2, sampleFloat 3) false false)
              (setObject 1%positive
                 (mkObject "pc" (kObjectTypeOther 1) (Some 2%positive)
                    (sampleFloat 0, sampleFloat 0, sampleFloat 0) false false)
                 (setObject 1%positive
                    (mkObject "pc" (kObjectTypeOther 1) (Some 1%positive)
                       (sampleFloat 0, sampleFloat 0, sampleFloat 0)
                       false false)
                    (setObject 1%positive
                       (mkObject "pc" (kObjectTypeOther 1) (Some 1%positive)
                          (sampleFloat 0, sampleFloat 0, sampleFloat 0)
                          false true)
                       sampleWorld))))
           1%positive 1%positive 2%positive
           (sampleFloat 1) (sampleFloat 2) (sampleFloat 3) eq_refl eq_refl).
  reflexivity.
Defined.

(** *** Registration and the handler of unimplemented functions *)

Lemma formatTag_run (o : option ObjPtr) (w : World) :
  exists tag, formatTag o w = ([], Done tag w).
Proof.
  destruct o as [p|]; cbn [formatTag].
  - rewrite bind_gets. eexists. reflexivity.
  - eexists. reflexivity.
Qed.

Lemma formatParam_run `{StrUtil} (v : Variable_) (w : World) :
  exists piece, formatParam v w = ([], Done piece w).
Proof.
  destruct v; cbn [formatParam]; try (eexists; reflexivity).
  destruct (formatTag_run o w) as [tag Htag].
  exists ("<object>(" ++ tag ++ ")")%string.
  unfold bind. rewrite Htag. reflexivity.
Qed.

Lemma formatParams_loop_run `{StrUtil} (ps : list Variable_) (i : nat)
    (params : string) (w : World) :
  exists out, formatParams_loop i ps params w = ([], Done out w).
Proof.
  revert i params. induction ps as [|v ps IH]; intros i params.
  - eexists. reflexivity.
  - cbn [formatParams_loop].
    destruct (formatParam_run v w) as [piece Hpiece].
    destruct (IH (S i)
                ((if Nat.eqb i 0 then params else params ++ ", ")
                 ++ piece)%string) as [out Hout].
    exists out. unfold bind at 1. rewrite Hpiece.
    cbn [prepend]. rewrite Hout. reflexivity.
Qed.

(** Formatting the parameters reads the world and nothing more. *)
Lemma formatParams_run `{StrUtil} (ctx : FunctionContext) (w : World) :
  exists params, formatParams ctx w = ([], Done params w).
Proof. apply formatParams_loop_run. Qed.

(** The handler warns once and gives back the context and the world as it
    found them. *)
Lemma unimplementedFunction_run `{StrUtil} (ctx : FunctionContext)
    (w : World) :
  exists params,
    formatParams ctx w = ([], Done params w)
    /\ unimplementedFunction ctx w
       = ([Warning ("TODO: " ++ ctx_name ctx ++ "(" ++ params ++ ")")],
          Done ctx w).
Proof.
  destruct (formatParams_run ctx w) as [params Hparams].
  exists params. split; [exact Hparams|].
  unfold unimplementedFunction, bind at 1. rewrite Hparams.
  reflexivity.
Qed.

(** Row [i] of the registrations comes from row [i] of the tables. *)
Lemma registerRows_nth `{StrUtil} (ptrs : list FunctionPointer) :
  forall (sigs : list FunctionSignature) (defs : list FunctionDefaults)
         (regs : list Registration) (i : nat) (fPtr : FunctionPointer),
    List.length ptrs = List.length sigs ->
    List.length ptrs = List.length defs ->
    registerRows ptrs sigs defs = Some regs ->
    nth_error ptrs i = Some fPtr ->
    exists fSig fDef r,
      nth_error sigs i = Some fSig
      /\ nth_error defs i = Some fDef
      /\ registerRow fPtr fSig fDef = Some r
      /\ nth_error regs i = Some r.
Proof.
  induction ptrs as [|p ptrs IH];
    intros [|sg sigs] [|df defs] regs i fPtr Hs Hd Hreg Hnth;
    try discriminate; [now destruct i|].
  cbn [registerRows] in Hreg.
  destruct (registerRow p sg df) as [r|] eqn:Hrow; [|discriminate].
  destruct (registerRows ptrs sigs defs) as [rs|] eqn:Hrows; [|discriminate].
  injection Hreg as <-.
  destruct i as [|i]; cbn [nth_error] in *.
  - injection Hnth as <-. exists sg, df, r. repeat split; assumption.
  - apply (IH sigs defs rs i fPtr); auto.
Qed.

(** *** [getRandom] *)

Lemma wrap32_small (z : Z) : INT_MIN <= z <= INT_MAX -> wrap32 z = z.
Proof.
  unfold INT_MIN, INT_MAX, wrap32. intros Hz.
  rewrite Z.mod_small by lia. lia.
Qed.

Lemma wrap32_range (z : Z) : INT_MIN <= wrap32 z <= INT_MAX.
Proof.
  unfold INT_MIN, INT_MAX, wrap32.
  pose proof (Z.mod_pos_bound (z + 2 ^ 31) (2 ^ 32) eq_refl). lia.
Qed.

Lemma wrap32_add_l (a b : Z) : wrap32 (wrap32 a + b) = wrap32 (a + b).
Proof.
  unfold wrap32.
  replace ((a + 2 ^ 31) mod 2 ^ 32 - 2 ^ 31 + b + 2 ^ 31)
    with ((a + 2 ^ 31) mod 2 ^ 32 + b) by lia.
  rewrite Zplus_mod_idemp_l. f_equal. f_equal. lia.
Qed.

Lemma drawOf_range (min max x : Z) :
  min <= max -> min <= drawOf min max x <= max.
Proof.
  intros Hle. unfold drawOf.
  pose proof (Z.mod_pos_bound x (max - min + 1)). lia.
Qed.

Lemma sumFrom_range (f : nat -> Z) (lo hi : Z) :
  (forall i, lo <= f i <= hi) ->
  forall k i, Z.of_nat k * lo <= sumFrom f i k <= Z.of_nat k * hi.
Proof.
  intros Hf. induction k as [|k IH]; intros i; cbn [sumFrom]; [lia|].
  specialize (IH (S i)). specialize (Hf i). lia.
Qed.

(** The loop, when the modulus does not overflow: [k] more draws are
    added to [r], with 32-bit wrap-around. *)
Lemma getRandom_loop_run (min max : Z) (v : nat -> Z) :
  min <= max -> max - min < INT_MAX ->
  INT_MIN <= min -> max <= INT_MAX ->
  (forall i, 0 <= v i <= INT_MAX) ->
  forall (k i : nat) (r : Z),
    INT_MIN <= r <= INT_MAX ->
    getRandom_loop k min max r (mkRand v i)
    = Some (wrap32 (r + sumFrom (fun j => drawOf min max (v j)) i k),
            mkRand v (i + k)).
Proof.
  intros Hle Hmod Hmin Hmax Hv.
  assert (Hm : add32 (sub32 max min) 1 = max - min + 1).
  { unfold add32, sub32. rewrite (wrap32_small (max - min));
      [apply wrap32_small|]; unfold INT_MIN, INT_MAX in *; lia. }
  induction k as [|k IH]; intros i r Hr.
  - cbn [getRandom_loop sumFrom]. rewrite Z.add_0_r, Nat.add_0_r.
    now rewrite wrap32_small.
  - cbn [getRandom_loop std_rand rand_values rand_taken]. rewrite Hm.
    unfold rem32.
    destruct (Z.eqb_spec (max - min + 1) 0) as [H0|_]; [lia|].
    destruct (Z.eqb_spec (v i) INT_MIN) as [Hi|_];
      [specialize (Hv i); unfold INT_MIN in Hi; lia|].
    cbn [andb].
    rewrite Z.rem_mod_nonneg by (specialize (Hv i); lia).
    assert (Hd : add32 (v i mod (max - min + 1)) min
                 = drawOf min max (v i)).
    { unfold add32. apply wrap32_small.
      pose proof (drawOf_range min max (v i) Hle). unfold drawOf in *. lia. }
    rewrite Hd. unfold add32 at 1.
    rewrite IH by apply wrap32_range.
    cbn [sumFrom]. rewrite wrap32_add_l, Z.add_assoc.
    now rewrite Nat.add_succ_r.
Qed.

Lemma sampleRand_ok : rand_ok sampleRand.
Proof.
  intros i. cbn [sampleRand rand_values]. unfold INT_MAX.
  pose proof (Z.mod_pos_bound (Z.of_nat i * 7 + 3) 32768 eq_refl). lia.
Qed.

(** C9, as stated, fails at the ends of the [int] range.  With
    [min = INT_MIN] and [max = INT_MAX] the modulus [max - min + 1] wraps
    around to 0 and the remainder has no value; with [min = max = 2^30]
    and [n = 2] the sum of the two draws wraps around to [-2^31], which is
    not in [[2 * 2^30, 2 * 2^30]]. *)
Lemma getRandom_fails_at_int_extremes :
  INT_MIN <= INT_MAX
  /\ add32 (sub32 INT_MAX INT_MIN) 1 = 0
  /\ getRandom INT_MIN INT_MAX 1 sampleRand = None
  /\ 2 ^ 30 <= 2 ^ 30
  /\ option_map fst (getRandom (2 ^ 30) (2 ^ 30) 2 sampleRand)
     = Some (- 2 ^ 31)
  /\ ~ (2 * 2 ^ 30 <= - 2 ^ 31).
Proof.
  repeat split; try (vm_compute; congruence).
Qed.

(** C9, amended.  For [min <= max] with a modulus [max - min + 1] that
    fits an [int], and with [k = max(n, 1)] such that [k * min] and
    [k * max] fit an [int32]: the modulus is positive, every draw
    [rand() % (max - min + 1) + min] lies in [[min, max]], the call returns
    the sum of the next [k] draws, having taken [k] values of [rand], and
    the sum lies in [[k * min, k * max]].  For every [min], [max] and
    state, every [n <= 0] behaves as [n = 1]. *)
Theorem getRandom_sums_draws_in_range
    (min max n : Z) (s : RandState) :
  rand_ok s ->
  min <= max ->
  max - min < INT_MAX ->
  INT_MIN <= Z.max n 1 * min ->
  Z.max n 1 * max <= INT_MAX ->
  let k := Z.max n 1 in
  let draw := fun i => drawOf min max (rand_values s i) in
  0 < add32 (sub32 max min) 1
  /\ (forall i, min <= draw i <= max)
  /\ getRandom min max n s
     = Some (sumFrom draw (rand_taken s) (Z.to_nat k),
             mkRand (rand_values s) (rand_taken s + Z.to_nat k))
  /\ k * min <= sumFrom draw (rand_taken s) (Z.to_nat k) <= k * max
  /\ (forall min' max' n' s',
        n' <= 0 -> getRandom min' max' n' s' = getRandom min' max' 1 s').
Proof.
  intros Hs Hle Hmod Hlo Hhi k draw.
  assert (Hk : 1 <= k) by (subst k; lia).
  assert (Hmin : INT_MIN <= min) by (unfold INT_MIN in *; nia).
  assert (Hmax : max <= INT_MAX) by (unfold INT_MAX in *; nia).
  assert (Hdraw : forall i, min <= draw i <= max)
    by (intros i; apply drawOf_range, Hle).
  assert (Hsum : k * min <= sumFrom draw (rand_taken s) (Z.to_nat k)
                 <= k * max).
  { pose proof (sumFrom_range draw min max Hdraw (Z.to_nat k) (rand_taken s)).
    rewrite Z2Nat.id in * by lia. assumption. }
  split; [|split; [exact Hdraw|split; [|split; [exact Hsum|]]]].
  - unfold add32, sub32. rewrite (wrap32_small (max - min));
      [rewrite wrap32_small|]; unfold INT_MIN, INT_MAX in *; lia.
  - unfold getRandom.
    replace (if n <? 1 then 1 else n) with k
      by (subst k; destruct (Z.ltb_spec n 1); lia).
    destruct s as [v i]. cbn [rand_values rand_taken] in *.
    rewrite (getRandom_loop_run min max v Hle Hmod Hmin Hmax Hs
               (Z.to_nat k) i 0)
      by (unfold INT_MIN, INT_MAX; lia).
    rewrite Z.add_0_l, wrap32_small; [reflexivity|].
    fold draw. lia.
  - intros min' max' n' s' Hn'. unfold getRandom.
    destruct (Z.ltb_spec n' 1); [reflexivity|lia].
Qed.

(** C9 amended, at three six-sided dice. *)
Lemma getRandom_sums_draws_in_range_witness :
  rand_ok sampleRand
  /\ 1 <= 6
  /\ 6 - 1 < INT_MAX
  /\ INT_MIN <= Z.max 3 1 * 1
  /\ Z.max 3 1 * 6 <= INT_MAX
  /\ getRandom 1 6 3 sampleRand
     = Some (sumFrom (fun i => drawOf 1 6 (rand_values sampleRand i))
               (rand_taken sampleRand) (Z.to_nat (Z.max 3 1)),
             mkRand (rand_values sampleRand)
               (rand_taken sampleRand + Z.to_nat (Z.max 3 1))).
Proof.
  split; [exact sampleRand_ok|].
  split; [lia|]. split; [unfold INT_MAX; lia|].
  split; [unfold INT_MIN; lia|]. split; [unfold INT_MAX; lia|].
  apply (getRandom_sums_draws_in_range 1 6 3 sampleRand).
  - exact sampleRand_ok.
  - lia.
  - unfold INT_MAX; lia.
  - unfold INT_MIN; lia.
  - unfold INT_MAX; lia.
Defined.

(** *** [getParamObject] *)

(** What [getParamObject] gives for an object parameter, case by case. *)
Lemma getParamObject_run (ctx : FunctionContext) (n : nat)
    (r : option ObjPtr) (w : World) :
  nth_error (ctx_params ctx) n = Some (VObject r) ->
  getParamObject ctx n w
  = ([], Done
           match r with
           | None => None
           | Some o =>
               if isNWN2Object w o then
                 match _type (objects w o) with
                 | kObjectTypeInvalid => None
                 | kObjectTypeSelf => ctx_caller ctx
                 | kObjectTypeOther _ => Some o
                 end
               else None
           end w).
Proof.
  intros Hn. unfold getParamObject, getParamAsObject. rewrite Hn.
  rewrite bind_ret. destruct r as [o|]; cbn [toObject].
  - rewrite bind_bind, bind_gets, bind_ret.
    destruct (isNWN2Object w o); [|reflexivity].
    unfold getObjectType. rewrite bind_gets.
    destruct (_type (objects w o)) eqn:Ht; cbn [ObjectType_eqb];
      try reflexivity;
      rewrite bind_gets, Ht; reflexivity.
  - rewrite bind_ret. reflexivity.
Qed.

(** C10, as stated, fails on its last clause: the caller is handed back
    unchecked.  In the sample world the parameter is object 4, of the type
    that stands for the caller, and the caller is object 5, of the invalid
    type; the call returns object 5. *)
Lemma getParamObject_returns_invalid_typed_caller :
  nth_error (ctx_params sampleSelfContext) 0 = Some (VObject (Some 4%positive))
  /\ _type (objects sampleWorld 4%positive) = kObjectTypeSelf
  /\ getParamObject sampleSelfContext 0 sampleWorld
     = ([], Done (Some 5%positive) sampleWorld)
  /\ _type (objects sampleWorld 5%positive) = kObjectTypeInvalid.
Proof. repeat split. Qed.

(** C10, amended.  When the [n]-th parameter is an object reference, the
    call returns normally, without effects and without changing the world:
    null when the reference is null, does not resolve to an object of the
    engine, or resolves to an object of the invalid type; the calling
    object of the context when the object has the type that stands for the
    caller; the resolved object itself in every other case.  So an object
    returned is either the caller, handed back as it is, or the resolved
    parameter, whose type is then neither the invalid one nor the one that
    stands for the caller. *)
Theorem getParamObject_resolves_parameter
    (ctx : FunctionContext) (n : nat) (r : option ObjPtr) (w : World) :
  nth_error (ctx_params ctx) n = Some (VObject r) ->
  exists res,
    getParamObject ctx n w = ([], Done res w)
    /\ (r = None -> res = None)
    /\ (forall o, r = Some o -> isNWN2Object w o = false -> res = None)
    /\ (forall o, r = Some o -> isNWN2Object w o = true ->
                  _type (objects w o) = kObjectTypeInvalid -> res = None)
    /\ (forall o, r = Some o -> isNWN2Object w o = true ->
                  _type (objects w o) = kObjectTypeSelf ->
                  res = ctx_caller ctx)
    /\ (forall o, r = Some o -> isNWN2Object w o = true ->
                  _type (objects w o) <> kObjectTypeInvalid ->
                  _type (objects w o) <> kObjectTypeSelf ->
                  res = Some o)
    /\ (forall o, res = Some o ->
                  (res = ctx_caller ctx
                   /\ exists o', r = Some o'
                                 /\ _type (objects w o') = kObjectTypeSelf)
                  \/ (r = Some o
                      /\ _type (objects w o) <> kObjectTypeInvalid
                      /\ _type (objects w o) <> kObjectTypeSelf)).
Proof.
  intros Hn. eexists. split; [apply (getParamObject_run ctx n r w Hn)|].
  destruct r as [o|].
  - destruct (isNWN2Object w o) eqn:Hobj;
      destruct (_type (objects w o)) eqn:Ht;
      repeat split;
      try (intros; congruence);
      try (intros o' [= <-]; intros; congruence).
    + intros o' Hres. left. split; [reflexivity|].
      exists o. split; [reflexivity|exact Ht].
    + intros o' [= <-]. right. rewrite Ht.
      repeat split; discriminate.
  - repeat split; try (intros; congruence).
Qed.

(** C10 amended, at the sample world: object 2 is passed and returned. *)
Lemma getParamObject_resolves_parameter_witness :
  nth_error (ctx_params sampleContext) 0 = Some (VObject (Some 2%positive))
  /\ exists res,
      getParamObject sampleContext 0 sampleWorld = ([], Done res sampleWorld)
      /\ res = Some 2%positive.
Proof.
  split; [reflexivity|].
  destruct (getParamObject_resolves_parameter sampleContext 0
              (Some 2%positive) sampleWorld eq_refl)
    as (res & Hrun & _ & _ & _ & _ & Hother & _).
  exists res. split; [exact Hrun|].
  apply (Hother 2%positive eq_refl eq_refl); discriminate.
Defined.

End NWN2Facts.

(** ** Further properties of the NWN2 engine functions *)

Module NWN2More.
Import NWN2 NWN2Facts.

Local Open Scope string_scope.
Local Open Scope Z_scope.

(** *** Registration *)

(** The rows of the three tables agree on their ids. *)
Lemma registerRows_succeeds `{StrUtil} (ptrs : list FunctionPointer) :
  forall (sigs : list FunctionSignature) (defs : list FunctionDefaults),
    List.length ptrs = List.length sigs ->
    List.length ptrs = List.length defs ->
    ((exists regs, registerRows ptrs sigs defs = Some regs)
     <-> forall i p s d,
           nth_error ptrs i = Some p ->
           nth_error sigs i = Some s ->
           nth_error defs i = Some d ->
           fs_id s = fp_id p /\ fd_id d = fp_id p).
Proof.
  induction ptrs as [|p ptrs IH]; intros [|sg sigs] [|df defs] Hs Hd;
    try discriminate.
  - split; [intros _ [|i] ? ? ? Hp; discriminate Hp|].
    intros _. exists []. reflexivity.
  - injection Hs as Hs. injection Hd as Hd.
    specialize (IH sigs defs Hs Hd). cbn [registerRows]. unfold registerRow.
    split.
    + intros [regs Hreg].
      destruct (N.eqb_spec (fs_id sg) (fp_id p)) as [Hsg|]; [|discriminate].
      destruct (N.eqb_spec (fd_id df) (fp_id p)) as [Hdf|]; [|discriminate].
      cbn [andb] in Hreg.
      destruct (registerRows ptrs sigs defs) as [rs|] eqn:Hrows;
        [|discriminate].
      destruct IH as [IH _]. specialize (IH (ex_intro _ rs eq_refl)).
      intros [|i] p' s' d' Hp' Hs' Hd'; cbn [nth_error] in *.
      * injection Hp' as <-. injection Hs' as <-. injection Hd' as <-.
        split; assumption.
      * apply (IH i); assumption.
    + intros Hall.
      destruct (Hall 0%nat p sg df eq_refl eq_refl eq_refl) as [Hsg Hdf].
      rewrite Hsg, Hdf, !N.eqb_refl. cbn [andb].
      destruct IH as [_ IH].
      destruct IH as [rs Hrs].
      { intros i p' s' d' Hp' Hs' Hd'. apply (Hall (S i)); assumption. }
      rewrite Hrs. eexists. reflexivity.
Qed.

(** X1. Registration goes through exactly when the three tables have the
    same number of rows and, row by row, the signature and the defaults
    carry the id of the function pointer; otherwise an assertion fails. *)
Theorem registerFunctions_succeeds_iff_tables_agree `{StrUtil}
    (kFunctionPointers : list FunctionPointer)
    (kFunctionSignatures : list FunctionSignature)
    (kFunctionDefaults : list FunctionDefaults) :
  (exists regs,
     registerFunctions kFunctionPointers kFunctionSignatures
       kFunctionDefaults = Some regs)
  <-> (List.length kFunctionPointers = List.length kFunctionSignatures
       /\ List.length kFunctionPointers = List.length kFunctionDefaults
       /\ forall i p s d,
           nth_error kFunctionPointers i = Some p ->
           nth_error kFunctionSignatures i = Some s ->
           nth_error kFunctionDefaults i = Some d ->
           fs_id s = fp_id p /\ fd_id d = fp_id p).
Proof.
  unfold registerFunctions.
  destruct (Nat.eqb_spec (List.length kFunctionPointers)
              (List.length kFunctionSignatures)) as [Hs|Hs]; cbn [negb].
  2:{ split; [intros [regs Hreg]; discriminate Hreg|].
      intros [Hs' _]. contradiction. }
  destruct (Nat.eqb_spec (List.length kFunctionPointers)
              (List.length kFunctionDefaults)) as [Hd|Hd]; cbn [negb].
  2:{ split; [intros [regs Hreg]; discriminate Hreg|].
      intros (_ & Hd' & _). contradiction. }
  rewrite (registerRows_succeeds kFunctionPointers kFunctionSignatures
             kFunctionDefaults Hs Hd).
  split; [intros Hall; split; [exact Hs|split; [exact Hd|exact Hall]]|].
  intros (_ & _ & Hall). exact Hall.
Qed.

(** A registration comes from the rows of its index. *)
Lemma registerRows_row `{StrUtil} (ptrs : list FunctionPointer) :
  forall (sigs : list FunctionSignature) (defs : list FunctionDefaults)
         (regs : list Registration) (i : nat) (r : Registration),
    List.length ptrs = List.length sigs ->
    List.length ptrs = List.length defs ->
    registerRows ptrs sigs defs = Some regs ->
    nth_error regs i = Some r ->
    exists p s d,
      nth_error ptrs i = Some p
      /\ nth_error sigs i = Some s
      /\ nth_error defs i = Some d
      /\ registerRow p s d = Some r.
Proof.
  induction ptrs as [|p ptrs IH];
    intros [|sg sigs] [|df defs] regs i r Hs Hd Hreg Hnth;
    try discriminate.
  - injection Hreg as <-. now destruct i.
  - cbn [registerRows] in Hreg.
    destruct (registerRow p sg df) as [r0|] eqn:Hrow; [|discriminate].
    destruct (registerRows ptrs sigs defs) as [rs|] eqn:Hrows;
      [|discriminate].
    injection Hreg as <-.
    destruct i as [|i]; cbn [nth_error] in *.
    + injection Hnth as <-. exists p, sg, df. repeat split; assumption.
    + apply (IH sigs defs rs i r); auto.
Qed.

Lemma registerFunctions_rows `{StrUtil}
    (ptrs : list FunctionPointer) (sigs : list FunctionSignature)
    (defs : list FunctionDefaults) (regs : list Registration) :
  registerFunctions ptrs sigs defs = Some regs ->
  List.length ptrs = List.length sigs
  /\ List.length ptrs = List.length defs
  /\ registerRows ptrs sigs defs = Some regs.
Proof.
  unfold registerFunctions.
  destruct (Nat.eqb_spec (List.length ptrs) (List.length sigs)) as [Hs|];
    [|discriminate].
  destruct (Nat.eqb_spec (List.length ptrs) (List.length defs)) as [Hd|];
    [|discriminate].
  cbn [negb]. auto.
Qed.

Lemma registerRows_ids `{StrUtil} (ptrs : list FunctionPointer) :
  forall (sigs : list FunctionSignature) (defs : list FunctionDefaults)
         (regs : list Registration),
    List.length ptrs = List.length sigs ->
    List.length ptrs = List.length defs ->
    registerRows ptrs sigs defs = Some regs ->
    map reg_id regs = map fp_id ptrs
    /\ map reg_name regs = map fp_name ptrs.
Proof.
  induction ptrs as [|p ptrs IH]; intros [|sg sigs] [|df defs] regs Hs Hd Hreg;
    try discriminate.
  - injection Hreg as <-. split; reflexivity.
  - cbn [registerRows] in Hreg.
    destruct (registerRow p sg df) as [r0|] eqn:Hrow; [|discriminate].
    destruct (registerRows ptrs sigs defs) as [rs|] eqn:Hrows;
      [|discriminate].
    injection Hreg as <-. injection Hs as Hs. injection Hd as Hd.
    destruct (IH sigs defs rs Hs Hd Hrows) as [Hid Hname].
    unfold registerRow in Hrow.
    destruct (N.eqb (fs_id sg) (fp_id p) && N.eqb (fd_id df) (fp_id p));
      [|discriminate].
    injection Hrow as <-. cbn [map reg_id reg_name].
    now rewrite Hid, Hname.
Qed.

(** X2. When registration goes through, there is one registration per
    table row, in table order: the ids and the names registered are the
    ids and the names of the function pointer table. *)
Theorem registerFunctions_registers_every_row_in_order `{StrUtil}
    (kFunctionPointers : list FunctionPointer)
    (kFunctionSignatures : list FunctionSignature)
    (kFunctionDefaults : list FunctionDefaults)
    (regs : list Registration) :
  registerFunctions kFunctionPointers kFunctionSignatures kFunctionDefaults
  = Some regs ->
  List.length regs = List.length kFunctionPointers
  /\ map reg_id regs = map fp_id kFunctionPointers
  /\ map reg_name regs = map fp_name kFunctionPointers.
Proof.
  intros Hreg.
  destruct (registerFunctions_rows _ _ _ _ Hreg) as (Hs & Hd & Hrows).
  destruct (registerRows_ids _ _ _ _ Hs Hd Hrows) as [Hid Hname].
  split; [|split; assumption].
  rewrite <- (length_map reg_id), Hid. apply length_map.
Qed.

Lemma registerFunctions_registers_every_row_in_order_witness :
  registerFunctions (H := sampleStrUtil) samplePointers sampleSignatures
    sampleDefaults = Some sampleRegistrations
  /\ List.length sampleRegistrations = List.length samplePointers
  /\ map reg_id sampleRegistrations = map fp_id samplePointers
  /\ map reg_name sampleRegistrations = map fp_name samplePointers.
Proof.
  split; [reflexivity|].
  apply (@registerFunctions_registers_every_row_in_order sampleStrUtil
           samplePointers sampleSignatures sampleDefaults
           sampleRegistrations).
  reflexivity.
Defined.

(** X3. When registration goes through, a row that has an implementation
    is registered with that implementation as its callable, under the
    row's name and id. *)
Theorem implemented_entry_registers_its_function `{StrUtil}
    (kFunctionPointers : list FunctionPointer)
    (kFunctionSignatures : list FunctionSignature)
    (kFunctionDefaults : list FunctionDefaults)
    (regs : list Registration) (i : nat) (fPtr : FunctionPointer)
    (func : funcPtr) :
  registerFunctions kFunctionPointers kFunctionSignatures kFunctionDefaults
  = Some regs ->
  nth_error kFunctionPointers i = Some fPtr ->
  fp_func fPtr = Some func ->
  exists r,
    nth_error regs i = Some r
    /\ reg_name r = fp_name fPtr
    /\ reg_id r = fp_id fPtr
    /\ reg_func r = func.
Proof.
  intros Hreg Hnth Hfunc.
  destruct (registerFunctions_rows _ _ _ _ Hreg) as (Hs & Hd & Hrows).
  destruct (registerRows_nth kFunctionPointers kFunctionSignatures
              kFunctionDefaults regs i fPtr Hs Hd Hrows Hnth)
    as (fSig & fDef & r & _ & _ & Hrow & Hr).
  exists r. split; [exact Hr|].
  unfold registerRow in Hrow.
  destruct (N.eqb (fs_id fSig) (fp_id fPtr) && N.eqb (fd_id fDef) (fp_id fPtr));
    [|discriminate].
  rewrite Hfunc in Hrow. injection Hrow as <-. repeat split.
Qed.

Lemma implemented_entry_registers_its_function_witness :
  registerFunctions (H := sampleStrUtil) samplePointers sampleSignatures
    sampleDefaults = Some sampleRegistrations
  /\ nth_error samplePointers 0
     = Some (mkFunctionPointer 0 "Random" (Some sampleImplemented))
  /\ exists r,
      nth_error sampleRegistrations 0 = Some r
      /\ reg_name r = "Random"
      /\ reg_id r = 0%N
      /\ reg_func r = sampleImplemented.
Proof.
  split; [reflexivity|]. split; [reflexivity|].
  apply (@implemented_entry_registers_its_function sampleStrUtil
           samplePointers sampleSignatures sampleDefaults
           sampleRegistrations 0
           (mkFunctionPointer 0 "Random" (Some sampleImplemented))
           sampleImplemented); reflexivity.
Defined.

(** The parameter types taken are the ones before the first [kTypeVoid]. *)
Lemma signatureParameters_prefix (ps : list Type_) :
  exists rest,
    ps = (signatureParameters ps ++ rest)%list
    /\ forallb (fun t => negb (isVoid t)) (signatureParameters ps) = true
    /\ match rest with
       | [] => True
       | t :: _ => t = kTypeVoid
       end.
Proof.
  induction ps as [|t ps (rest & Hps & Hall & Hrest)]; cbn [signatureParameters].
  - exists []. repeat split.
  - destruct t; cbn [isVoid];
      try (exists rest; cbn [app forallb isVoid negb andb];
           split; [now f_equal | split; assumption]).
    exists (kTypeVoid :: ps). repeat split.
Qed.

(** The defaults taken are the ones before the first null pointer. *)
Lemma defaultParameters_prefix (ds : list (option Variable_)) :
  exists rest,
    ds = (map Some (defaultParameters ds) ++ rest)%list
    /\ match rest with
       | [] => True
       | d :: _ => d = None
       end.
Proof.
  induction ds as [|d ds (rest & Hds & Hrest)]; cbn [defaultParameters].
  - exists []. repeat split.
  - destruct d as [v|].
    + exists rest. cbn [map app]. split; [now f_equal|assumption].
    + exists (None :: ds). repeat split.
Qed.

(** X4. The signature registered for a row is never empty: it is the
    row's return type followed by the row's parameter types up to, and
    without, the first [kTypeVoid]; what follows that [kTypeVoid] in the
    table is ignored. *)
Theorem registered_signature_stops_at_void `{StrUtil}
    (kFunctionPointers : list FunctionPointer)
    (kFunctionSignatures : list FunctionSignature)
    (kFunctionDefaults : list FunctionDefaults)
    (regs : list Registration) (i : nat) (r : Registration) :
  registerFunctions kFunctionPointers kFunctionSignatures kFunctionDefaults
  = Some regs ->
  nth_error regs i = Some r ->
  exists fSig params rest,
    nth_error kFunctionSignatures i = Some fSig
    /\ reg_signature r = fs_returnType fSig :: params
    /\ fs_parameters fSig = (params ++ rest)%list
    /\ forallb (fun t => negb (isVoid t)) params = true
    /\ match rest with
       | [] => True
       | t :: _ => t = kTypeVoid
       end.
Proof.
  intros Hreg Hnth.
  destruct (registerFunctions_rows _ _ _ _ Hreg) as (Hs & Hd & Hrows).
  destruct (registerRows_row kFunctionPointers kFunctionSignatures
              kFunctionDefaults regs i r Hs Hd Hrows Hnth)
    as (p & s & d & _ & Hsig & _ & Hrow).
  unfold registerRow in Hrow.
  destruct (N.eqb (fs_id s) (fp_id p) && N.eqb (fd_id d) (fp_id p));
    [|discriminate].
  injection Hrow as <-.
  destruct (signatureParameters_prefix (fs_parameters s))
    as (rest & Hps & Hall & Hrest).
  exists s, (signatureParameters (fs_parameters s)), rest.
  repeat split; assumption.
Qed.

Lemma registered_signature_stops_at_void_witness :
  registerFunctions (H := sampleStrUtil) samplePointers sampleSignatures
    sampleDefaults = Some sampleRegistrations
  /\ exists r,
      nth_error sampleRegistrations 2 = Some r
      /\ exists fSig params rest,
          nth_error sampleSignatures 2 = Some fSig
          /\ reg_signature r = fs_returnType fSig :: params
          /\ fs_parameters fSig = (params ++ rest)%list
          /\ forallb (fun t => negb (isVoid t)) params = true
          /\ match rest with
             | [] => True
             | t :: _ => t = kTypeVoid
             end.
Proof.
  split; [reflexivity|].
  eexists. split; [reflexivity|].
  apply (@registered_signature_stops_at_void sampleStrUtil
           samplePointers sampleSignatures sampleDefaults
           sampleRegistrations 2); reflexivity.
Defined.

(** X5. The default values registered for a row are the row's defaults up
    to, and without, the first null pointer, in order; what follows that
    null pointer in the table is ignored. *)
Theorem registered_defaults_stop_at_null `{StrUtil}
    (kFunctionPointers : list FunctionPointer)
    (kFunctionSignatures : list FunctionSignature)
    (kFunctionDefaults : list FunctionDefaults)
    (regs : list Registration) (i : nat) (r : Registration) :
  registerFunctions kFunctionPointers kFunctionSignatures kFunctionDefaults
  = Some regs ->
  nth_error regs i = Some r ->
  exists fDef rest,
    nth_error kFunctionDefaults i = Some fDef
    /\ fd_defaults fDef = (map Some (reg_defaults r) ++ rest)%list
    /\ match rest with
       | [] => True
       | d :: _ => d = None
       end.
Proof.
  intros Hreg Hnth.
  destruct (registerFunctions_rows _ _ _ _ Hreg) as (Hs & Hd & Hrows).
  destruct (registerRows_row kFunctionPointers kFunctionSignatures
              kFunctionDefaults regs i r Hs Hd Hrows Hnth)
    as (p & s & d & _ & _ & Hdef & Hrow).
  unfold registerRow in Hrow.
  destruct (N.eqb (fs_id s) (fp_id p) && N.eqb (fd_id d) (fp_id p));
    [|discriminate].
  injection Hrow as <-.
  destruct (defaultParameters_prefix (fd_defaults d)) as (rest & Hds & Hrest).
  exists d, rest. repeat split; assumption.
Qed.

Lemma registered_defaults_stop_at_null_witness :
  registerFunctions (H := sampleStrUtil) samplePointers sampleSignatures
    sampleDefaults = Some sampleRegistrations
  /\ exists r,
      nth_error sampleRegistrations 2 = Some r
      /\ exists fDef rest,
          nth_error sampleDefaults 2 = Some fDef
          /\ fd_defaults fDef = (map Some (reg_defaults r) ++ rest)%list
          /\ match rest with
             | [] => True
             | d :: _ => d = None
             end.
Proof.
  split; [reflexivity|].
  eexists. split; [reflexivity|].
  apply (@registered_defaults_stop_at_null sampleStrUtil
           samplePointers sampleSignatures sampleDefaults
           sampleRegistrations 2); reflexivity.
Defined.

(** *** Formatting *)

Lemma append_nil_r (s : string) : (s ++ "")%string = s.
Proof. induction s as [|c s IH]; cbn; [reflexivity|now rewrite IH]. Qed.

Lemma append_assoc (s t u : string) :
  ((s ++ t) ++ u)%string = (s ++ (t ++ u))%string.
Proof. induction s as [|c s IH]; cbn; [reflexivity|now rewrite IH]. Qed.

Lemma append_cancel_last (c : ascii) (s t : string) :
  (s ++ String c "")%string = (t ++ String c "")%string -> s = t.
Proof.
  revert t. induction s as [|a s IH]; intros [|b t] Heq; cbn in Heq.
  - reflexivity.
  - injection Heq as _ Heq. destruct t; discriminate Heq.
  - injection Heq as _ Heq. destruct s; discriminate Heq.
  - injection Heq as -> Heq. f_equal. now apply IH.
Qed.

Lemma formatTag_text (o : option ObjPtr) (w : World) :
  formatTag o w = ([], Done (tagText w o) w).
Proof.
  destruct o as [p|]; cbn [formatTag tagText]; [|reflexivity].
  now rewrite bind_gets.
Qed.

Lemma formatParam_text `{StrUtil} (v : Variable_) (w : World) :
  formatParam v w = ([], Done (paramText w v) w).
Proof.
  destruct v; cbn [formatParam paramText]; try reflexivity.
  unfold bind. rewrite formatTag_text. reflexivity.
Qed.

Lemma formatParams_loop_text `{StrUtil} (w : World) (ps : list Variable_) :
  forall (i : nat) (params : string),
    formatParams_loop i ps params w
    = ([], Done
             (params
              ++ match ps with
                 | [] => ""
                 | _ :: _ =>
                     (if Nat.eqb i 0 then "" else ", ")
                     ++ String.concat ", " (map (paramText w) ps)
                 end)%string w).
Proof.
  induction ps as [|v ps IH]; intros i params.
  - cbn [formatParams_loop]. now rewrite append_nil_r.
  - cbn [formatParams_loop]. unfold bind at 1. rewrite formatParam_text.
    cbn [prepend]. rewrite IH. cbn [fst snd app]. do 2 f_equal.
    cbn [map String.concat].
    destruct ps as [|v' ps]; cbn [map]; destruct (Nat.eqb i 0);
      rewrite ?append_nil_r, ?append_assoc; reflexivity.
Qed.

(** X6. The parameters are formatted without any effect and without
    changing the world; the text is the texts of the parameters in order,
    with a comma and a space between two of them and nothing before the
    first or after the last: empty for no parameters. *)
Theorem formatParams_joins_parameter_texts `{StrUtil}
    (ctx : FunctionContext) (w : World) :
  formatParams ctx w
  = ([], Done (String.concat ", " (map (paramText w) (ctx_params ctx))) w).
Proof.
  unfold formatParams. rewrite formatParams_loop_text.
  destruct (ctx_params ctx); reflexivity.
Qed.

(** X7. The text of an object pointer tells a null pointer from an object
    and gives the tag back: two pointers, each in its world, are formatted
    alike only when both are null or both are objects with the same tag.
    An object whose tag is the digit 0 is not mistaken for a null
    pointer. *)
Theorem formatTag_tells_null_and_tags_apart
    (w w' : World) (o o' : option ObjPtr) (s : string) :
  formatTag o w = ([], Done s w) ->
  formatTag o' w' = ([], Done s w') ->
  match o, o' with
  | None, None => True
  | Some p, Some p' => _tag (objects w p) = _tag (objects w' p')
  | _, _ => False
  end.
Proof.
  rewrite !formatTag_text. intros [= <-] [= Heq].
  destruct o as [p|], o' as [p'|]; cbn [tagText] in Heq.
  - unfold dquote in Heq. cbn in Heq. injection Heq as Heq.
    symmetry. now apply append_cancel_last in Heq.
  - discriminate Heq.
  - discriminate Heq.
  - exact I.
Qed.

Lemma formatTag_tells_null_and_tags_apart_witness :
  formatTag (Some 2%positive) sampleWorld
  = ([], Done (dquote ++ "npc" ++ dquote)%string sampleWorld)
  /\ formatTag (Some 2%positive) sampleWorldLimbo
     = ([], Done (dquote ++ "npc" ++ dquote)%string sampleWorldLimbo)
  /\ _tag (objects sampleWorld 2%positive)
     = _tag (objects sampleWorldLimbo 2%positive).
Proof.
  split; [reflexivity|]. split; [reflexivity|].
  apply (formatTag_tells_null_and_tags_apart sampleWorld sampleWorldLimbo
           (Some 2%positive) (Some 2%positive)
           (dquote ++ "npc" ++ dquote)%string); reflexivity.
Defined.

(** *** More on [getRandom] *)

Lemma wrap32_add_r (a b : Z) : wrap32 (a + wrap32 b) = wrap32 (a + b).
Proof. now rewrite (Z.add_comm a), wrap32_add_l, Z.add_comm. Qed.

(** The loop for any modulus that is not zero: [k] draws are added, with
    32-bit wrap-around. *)
Lemma getRandom_loop_modulus (min max m : Z) (v : nat -> Z) :
  add32 (sub32 max min) 1 = m ->
  m <> 0 ->
  (forall i, 0 <= v i <= INT_MAX) ->
  forall (k i : nat) (r : Z),
    INT_MIN <= r <= INT_MAX ->
    getRandom_loop k min max r (mkRand v i)
    = Some (wrap32 (r + sumFrom (fun j => drawRem min m (v j)) i k),
            mkRand v (i + k)).
Proof.
  intros Hm Hnz Hv. induction k as [|k IH]; intros i r Hr.
  - cbn [getRandom_loop sumFrom]. rewrite Z.add_0_r, Nat.add_0_r.
    now rewrite wrap32_small.
  - cbn [getRandom_loop std_rand rand_values rand_taken]. rewrite Hm.
    unfold rem32.
    destruct (Z.eqb_spec m 0) as [H0|_]; [contradiction|].
    destruct (Z.eqb_spec (v i) INT_MIN) as [Hi|_];
      [specialize (Hv i); unfold INT_MIN in Hi; lia|].
    cbn [andb]. fold (drawRem min m (v i)). unfold add32 at 1.
    rewrite IH by apply wrap32_range.
    cbn [sumFrom]. rewrite wrap32_add_l, Z.add_assoc.
    now rewrite Nat.add_succ_r.
Qed.

Lemma getRandom_count (n : Z) :
  (if n <? 1 then 1 else n) = Z.max n 1.
Proof. destruct (Z.ltb_spec n 1); lia. Qed.

(** Within the [int] range the modulus is zero for an empty range and for
    the full range, and for no other. *)
Lemma modulus_zero_iff (min max : Z) :
  INT_MIN <= min <= INT_MAX ->
  INT_MIN <= max <= INT_MAX ->
  (add32 (sub32 max min) 1 = 0
   <-> max = min - 1 \/ (min = INT_MIN /\ max = INT_MAX)).
Proof.
  unfold INT_MIN, INT_MAX. intros Hmin Hmax.
  unfold add32, sub32. rewrite wrap32_add_l. unfold wrap32.
  pose proof (Z.mod_pos_bound (max - min + 1 + 2 ^ 31) (2 ^ 32) eq_refl) as Hb.
  pose proof (Z_div_mod_eq_full (max - min + 1 + 2 ^ 31) (2 ^ 32)) as Hd.
  split.
  - intros Hz. lia.
  - intros [->|[-> ->]].
    + replace (min - 1 - min + 1 + 2 ^ 31) with (2 ^ 31) by lia.
      reflexivity.
    + reflexivity.
Qed.

Lemma sumFrom_const (f : nat -> Z) (c : Z) :
  (forall j, f j = c) -> forall k i, sumFrom f i k = Z.of_nat k * c.
Proof.
  intros Hf. induction k as [|k IH]; intros i; cbn [sumFrom]; [lia|].
  rewrite Hf, IH. lia.
Qed.

Lemma getRandom_loop_thread (min max : Z) :
  forall (k : nat) (r : Z) (s : RandState) (r' : Z) (s' : RandState),
    getRandom_loop k min max r s = Some (r', s') ->
    rand_values s' = rand_values s
    /\ rand_taken s' = (rand_taken s + k)%nat
    /\ (INT_MIN <= r <= INT_MAX -> INT_MIN <= r' <= INT_MAX).
Proof.
  induction k as [|k IH]; intros r s r' s' Hrun; cbn [getRandom_loop] in Hrun.
  - injection Hrun as <- <-. rewrite Nat.add_0_r. auto.
  - unfold std_rand in Hrun.
    destruct (rem32 (rand_values s (rand_taken s))
                (add32 (sub32 max min) 1)) as [d|]; [|discriminate].
    destruct (IH _ _ _ _ Hrun) as (Hv & Ht & Hr).
    cbn [rand_values rand_taken] in Hv, Ht.
    split; [exact Hv|]. split; [rewrite Ht; lia|].
    intros _. apply Hr, wrap32_range.
Qed.

(** X8. Whatever the arguments, when [getRandom] returns it has taken
    exactly [max(n, 1)] values from [rand], one after the other, and its
    result is a 32-bit signed integer. *)
Theorem getRandom_takes_one_rand_per_die
    (min max n : Z) (s : RandState) (r : Z) (s' : RandState) :
  getRandom min max n s = Some (r, s') ->
  rand_values s' = rand_values s
  /\ rand_taken s' = (rand_taken s + Z.to_nat (Z.max n 1))%nat
  /\ INT_MIN <= r <= INT_MAX.
Proof.
  unfold getRandom. rewrite getRandom_count. intros Hrun.
  destruct (getRandom_loop_thread min max _ _ _ _ _ Hrun) as (Hv & Ht & Hr).
  repeat split; try assumption; apply Hr; unfold INT_MIN, INT_MAX; lia.
Qed.

Lemma getRandom_takes_one_rand_per_die_witness :
  getRandom 1 6 3 sampleRand = Some (15, mkRand (rand_values sampleRand) 3)
  /\ rand_taken (mkRand (rand_values sampleRand) 3)
     = (rand_taken sampleRand + Z.to_nat (Z.max 3 1))%nat
  /\ INT_MIN <= 15 <= INT_MAX.
Proof.
  split; [reflexivity|].
  apply (getRandom_takes_one_rand_per_die 1 6 3 sampleRand 15
           (mkRand (rand_values sampleRand) 3)).
  reflexivity.
Defined.

(** X9. With [min] and [max] in the [int] range, [getRandom] has no value
    (it divides by zero) exactly when the range is empty by one,
    [max = min - 1], or is the whole [int] range; for every other pair,
    also with [max < min - 1], it returns. *)
Theorem getRandom_divides_by_zero_iff
    (min max n : Z) (s : RandState) :
  rand_ok s ->
  INT_MIN <= min <= INT_MAX ->
  INT_MIN <= max <= INT_MAX ->
  (getRandom min max n s = None
   <-> max = min - 1 \/ (min = INT_MIN /\ max = INT_MAX)).
Proof.
  intros Hs Hmin Hmax. rewrite <- (modulus_zero_iff min max Hmin Hmax).
  unfold getRandom. rewrite getRandom_count.
  destruct (Z.eq_dec (add32 (sub32 max min) 1) 0) as [Hz|Hnz].
  - split; [intros _; exact Hz|intros _].
    destruct (Z.to_nat (Z.max n 1)) as [|k] eqn:Hk; [lia|].
    cbn [getRandom_loop]. unfold std_rand. rewrite Hz. reflexivity.
  - split; [|intros Hz; contradiction].
    destruct s as [v i].
    rewrite (getRandom_loop_modulus min max _ v eq_refl Hnz Hs)
      by (unfold INT_MIN, INT_MAX; lia).
    discriminate.
Qed.

Lemma getRandom_divides_by_zero_iff_witness :
  rand_ok sampleRand
  /\ INT_MIN <= 7 <= INT_MAX
  /\ INT_MIN <= 6 <= INT_MAX
  /\ getRandom 7 6 2 sampleRand = None.
Proof.
  split; [exact sampleRand_ok|].
  split; [unfold INT_MIN, INT_MAX; lia|].
  split; [unfold INT_MIN, INT_MAX; lia|].
  apply (getRandom_divides_by_zero_iff 7 6 2 sampleRand).
  - exact sampleRand_ok.
  - unfold INT_MIN, INT_MAX; lia.
  - unfold INT_MIN, INT_MAX; lia.
  - left. reflexivity.
Defined.

(** X10. A range of one value, [min = max = c], gives [max(n, 1) * c]
    whatever [rand] returns, as long as that product fits an [int32]; the
    values of [rand] are taken all the same. *)
Theorem getRandom_of_single_value
    (c n : Z) (s : RandState) :
  rand_ok s ->
  INT_MIN <= Z.max n 1 * c <= INT_MAX ->
  getRandom c c n s
  = Some (Z.max n 1 * c,
          mkRand (rand_values s) (rand_taken s + Z.to_nat (Z.max n 1))).
Proof.
  intros Hs Hc.
  assert (Hk : 1 <= Z.max n 1) by lia.
  assert (Hrange : INT_MIN <= c <= INT_MAX)
    by (unfold INT_MIN, INT_MAX in *; nia).
  unfold getRandom. rewrite getRandom_count. destruct s as [v i].
  cbn [rand_values rand_taken].
  rewrite (getRandom_loop_run c c v); try lia; try exact Hs;
    try (unfold INT_MIN, INT_MAX in *; lia).
  rewrite (sumFrom_const _ c).
  - rewrite Z2Nat.id by lia. rewrite Z.add_0_l, wrap32_small by exact Hc.
    reflexivity.
  - intros j. unfold drawOf.
    replace (c - c + 1) with 1 by lia. rewrite Z.mod_1_r. lia.
Qed.

Lemma getRandom_of_single_value_witness :
  rand_ok sampleRand
  /\ INT_MIN <= Z.max 4 1 * 5 <= INT_MAX
  /\ getRandom 5 5 4 sampleRand
     = Some (Z.max 4 1 * 5,
             mkRand (rand_values sampleRand)
               (rand_taken sampleRand + Z.to_nat (Z.max 4 1))).
Proof.
  split; [exact sampleRand_ok|].
  split; [unfold INT_MIN, INT_MAX; lia|].
  apply (getRandom_of_single_value 5 4 sampleRand).
  - exact sampleRand_ok.
  - unfold INT_MIN, INT_MAX; lia.
Defined.

(** X11. With the bounds the wrong way round, [max < min - 1], the result
    is not between [max] and [min]: the modulus is negative, every draw is
    [min] plus a value below [min - max - 1], and the sum of the
    [k = max(n, 1)] draws lies in [[k * min, k * (2 * min - max - 2)]],
    as long as these fit an [int32]. *)
Theorem getRandom_of_reversed_range
    (min max n : Z) (s : RandState) :
  rand_ok s ->
  max < min - 1 ->
  INT_MIN <= max - min ->
  INT_MIN <= Z.max n 1 * min ->
  Z.max n 1 * (2 * min - max - 2) <= INT_MAX ->
  exists r s',
    getRandom min max n s = Some (r, s')
    /\ Z.max n 1 * min <= r <= Z.max n 1 * (2 * min - max - 2).
Proof.
  intros Hs Hrev Hsub Hlo Hhi.
  set (k := Z.max n 1) in *.
  assert (Hk : 1 <= k) by (subst k; lia).
  assert (Hmin : INT_MIN <= min) by (unfold INT_MIN in *; nia).
  assert (Hup : 2 * min - max - 2 <= INT_MAX)
    by (unfold INT_MAX in *; nia).
  assert (Hm : add32 (sub32 max min) 1 = max - min + 1).
  { unfold add32, sub32. rewrite (wrap32_small (max - min));
      [apply wrap32_small|]; unfold INT_MIN, INT_MAX in *; lia. }
  assert (Hdraw : forall x, 0 <= x ->
            min <= drawRem min (max - min + 1) x <= 2 * min - max - 2).
  { intros x Hx. unfold drawRem.
    replace (max - min + 1) with (- (min - max - 1)) by lia.
    rewrite Z.rem_opp_r by lia. rewrite Z.rem_mod_nonneg by lia.
    pose proof (Z.mod_pos_bound x (min - max - 1)).
    unfold add32. rewrite wrap32_small;
      unfold INT_MIN, INT_MAX in *; lia. }
  unfold getRandom. rewrite getRandom_count. fold k. destruct s as [v i].
  rewrite (getRandom_loop_modulus min max _ v Hm) by
    (try exact Hs; unfold INT_MIN, INT_MAX in *; lia).
  pose proof (sumFrom_range (fun j => drawRem min (max - min + 1) (v j))
                min (2 * min - max - 2)
                (fun j => Hdraw (v j) (proj1 (Hs j)))
                (Z.to_nat k) i) as Hsum.
  rewrite Z2Nat.id in Hsum by lia.
  eexists. eexists. split; [reflexivity|].
  rewrite Z.add_0_l, wrap32_small; [exact Hsum|].
  lia.
Qed.

Lemma getRandom_of_reversed_range_witness :
  rand_ok sampleRand
  /\ 1 < 6 - 1
  /\ INT_MIN <= 1 - 6
  /\ INT_MIN <= Z.max 1 1 * 6
  /\ Z.max 1 1 * (2 * 6 - 1 - 2) <= INT_MAX
  /\ exists r s',
      getRandom 6 1 1 sampleRand = Some (r, s')
      /\ Z.max 1 1 * 6 <= r <= Z.max 1 1 * (2 * 6 - 1 - 2).
Proof.
  split; [exact sampleRand_ok|]. split; [lia|].
  split; [unfold INT_MIN; lia|]. split; [unfold INT_MIN; lia|].
  split; [unfold INT_MAX; lia|].
  apply (getRandom_of_reversed_range 6 1 1 sampleRand).
  - exact sampleRand_ok.
  - lia.
  - unfold INT_MIN; lia.
  - unfold INT_MIN; lia.
  - unfold INT_MAX; lia.
Defined.

(** *** More on [jumpTo] *)

(** A call that passed the sanity check and returned has moved the object
    and nothing else. *)
Lemma jumpTo_returns_moved (w w' : World) (o : ObjPtr) (from to : AreaPtr)
    (x y z : float) :
  _area (objects w o) = Some from ->
  snd (jumpTo o (Some to) x y z w) = Done tt w' ->
  exists visible modelLoaded,
    movedTo w w' o (placed (objects w o) to x y z visible modelLoaded).
Proof.
  intros H Hdone.
  assert (Hgoal : forall v m,
    (exists w'', snd (jumpTo o (Some to) x y z w) = Done tt w''
                 /\ movedTo w w'' o (placed (objects w o) to x y z v m)) ->
    exists visible modelLoaded,
      movedTo w w' o (placed (objects w o) to x y z visible modelLoaded)).
  { intros v m (w'' & Hw'' & Hmoved). rewrite Hdone in Hw''.
    injection Hw'' as <-. now exists v, m. }
  destruct (Pos.eq_dec from to) as [->|Hne].
  { eapply Hgoal, (jumpTo_path_same w o to x y z H). }
  destruct (pc w) as [pcp|] eqn:Hpc.
  2:{ eapply Hgoal, (jumpTo_path_no_pc w o from to x y z H Hne Hpc). }
  destruct (_area (objects w pcp)) as [pa|] eqn:Hpa.
  2:{ rewrite (jumpTo_path_fault w o pcp from to x y z H Hne Hpc Hpa)
        in Hdone. discriminate Hdone. }
  destruct (String.eqb_spec (resRef w from) (resRef w pa)) as [Hfrom|Hfrom].
  { eapply Hgoal,
      (jumpTo_path_leave w o pcp from to pa x y z H Hne Hpc Hpa Hfrom). }
  destruct (String.eqb_spec (resRef w to) (resRef w pa)) as [Hto|Hto].
  { eapply Hgoal,
      (jumpTo_path_enter w o pcp from to pa x y z H Hne Hpc Hpa Hfrom Hto). }
  eapply Hgoal,
    (jumpTo_path_elsewhere w o pcp from to pa x y z H Hne Hpc Hpa Hfrom Hto).
Qed.

(** X12. A call that returns, on whichever path, has changed nothing but
    the object it was given: the player character is who it was, every
    area has the resource reference it had, every other object is
    untouched, and the object itself keeps its tag and its type. *)
Theorem jumpTo_changes_only_its_object
    (w w' : World) (o : ObjPtr) (area : option AreaPtr) (x y z : float) :
  snd (jumpTo o area x y z w) = Done tt w' ->
  pc w' = pc w
  /\ (forall a, resRef w' a = resRef w a)
  /\ (forall p, p <> o -> objects w' p = objects w p)
  /\ _tag (objects w' o) = _tag (objects w o)
  /\ _type (objects w' o) = _type (objects w o).
Proof.
  intros Hdone.
  destruct (_area (objects w o)) as [from|] eqn:H.
  - destruct area as [to|].
    + destruct (jumpTo_returns_moved w w' o from to x y z H Hdone)
        as (v & m & Hpc & Hobj & Hrest & Hres).
      rewrite Hobj. repeat split; assumption.
    + rewrite (jumpTo_path_error w o None x y z (or_intror eq_refl))
        in Hdone.
      injection Hdone as <-. repeat split.
  - rewrite (jumpTo_path_error w o area x y z (or_introl H)) in Hdone.
    injection Hdone as <-. repeat split.
Qed.

(** X12 at the sample world: object 2 moves from area 2 into area 1. *)
Lemma jumpTo_changes_only_its_object_witness :
  exists w',
    snd (jumpTo 2%positive (Some 1%positive) (sampleFloat 1) (sampleFloat 2)
           (sampleFloat 3) sampleWorld) = Done tt w'
    /\ pc w' = pc sampleWorld
    /\ (forall a, resRef w' a = resRef sampleWorld a)
    /\ (forall p, p <> 2%positive -> objects w' p = objects sampleWorld p)
    /\ _tag (objects w' 2%positive) = _tag (objects sampleWorld 2%positive)
    /\ _type (objects w' 2%positive)
       = _type (objects sampleWorld 2%positive).
Proof.
  eexists. split; [reflexivity|].
  eapply (jumpTo_changes_only_its_object sampleWorld _ 2%positive
            (Some 1%positive) (sampleFloat 1) (sampleFloat 2)
            (sampleFloat 3)).
  reflexivity.
Defined.

Lemma guarded_inner (mid t : list Effect) :
  forallb isInner mid = true ->
  guarded true (mid ++ t) = guarded true t
  /\ lockedAfter true (mid ++ t) = lockedAfter true t.
Proof.
  induction mid as [|e mid IH]; cbn [forallb app]; [auto|].
  intros Hmid. apply andb_true_iff in Hmid as [He Hmid].
  destruct (IH Hmid) as [Hg Hl].
  destruct e; try discriminate He;
    cbn [guarded lockedAfter isMutation negb orb andb]; auto.
Qed.

(** X13. In every call, on whichever path and however it ends, the frame
    lock is never taken while held nor released while not held, and
    nothing that changes an object is called unless the lock is held; a
    call that returns leaves the lock released. *)
Theorem jumpTo_changes_objects_only_under_the_lock
    (w : World) (o : ObjPtr) (area : option AreaPtr) (x y z : float) :
  guarded false (traceOf (jumpTo o area x y z w)) = true
  /\ (forall w', snd (jumpTo o area x y z w) = Done tt w' ->
                 lockedAfter false (traceOf (jumpTo o area x y z w)) = false).
Proof.
  assert (Herr : _area (objects w o) = None \/ area = None ->
    guarded false (traceOf (jumpTo o area x y z w)) = true
    /\ (forall w', snd (jumpTo o area x y z w) = Done tt w' ->
          lockedAfter false (traceOf (jumpTo o area x y z w)) = false)).
  { intros Hnull. rewrite (jumpTo_path_error w o area x y z Hnull).
    split; [reflexivity|intros; reflexivity]. }
  destruct (_area (objects w o)) as [from|] eqn:H; [|now apply Herr; left].
  destruct area as [to|]; [|now apply Herr; right].
  clear Herr.
  assert (Hdone : from = to \/ pcHasArea w ->
    guarded false (traceOf (jumpTo o (Some to) x y z w)) = true
    /\ (forall w', snd (jumpTo o (Some to) x y z w) = Done tt w' ->
          lockedAfter false (traceOf (jumpTo o (Some to) x y z w)) = false)).
  { intros Hok.
    destruct (jumpTo_completes w o from to x y z H Hok)
      as (mid & w'' & Ht & Hmid & _).
    rewrite Ht. cbn [guarded lockedAfter negb andb].
    destruct (guarded_inner mid
                ([SetPosition o x y z; UnlockFrame] ++ notification w o)
                Hmid) as [Hg Hl].
    rewrite Hg, Hl. unfold notification.
    destruct (ptr_eqb (Some o) (pc w));
      (split; [reflexivity|intros; reflexivity]). }
  destruct (Pos.eq_dec from to) as [Heq|Hne]; [now apply Hdone; left|].
  destruct (pc w) as [pcp|] eqn:Hpc.
  2:{ apply Hdone. right. intros p Hp. rewrite Hpc in Hp. discriminate Hp. }
  destruct (_area (objects w pcp)) as [pa|] eqn:Hpa.
  - apply Hdone. right. intros p Hp. rewrite Hpc in Hp.
    injection Hp as <-. rewrite Hpa. discriminate.
  - rewrite (jumpTo_path_fault w o pcp from to x y z H Hne Hpc Hpa).
    split; [reflexivity|intros w' Hw'; discriminate Hw'].
Qed.

(** X14. The player character itself, moved to another area, is always
    hidden and its model unloaded, never shown, whatever the resource
    references of the two areas; the module is then notified. *)
Theorem jumpTo_hides_the_player_character_between_areas
    (w : World) (o : ObjPtr) (from to : AreaPtr) (x y z : float) :
  pc w = Some o ->
  _area (objects w o) = Some from ->
  from <> to ->
  traceOf (jumpTo o (Some to) x y z w)
  = [LockFrame; moveWarning w from to; Hide o; UnloadModel o;
     SetArea o (Some to); SetPosition o x y z; UnlockFrame; MovedPC]
  /\ exists w',
      snd (jumpTo o (Some to) x y z w) = Done tt w'
      /\ objects w' o = placed (objects w o) to x y z false false.
Proof.
  intros Hpc H Hne.
  destruct (jumpTo_path_leave w o o from to from x y z H Hne Hpc H eq_refl)
    as (Ht & w' & Hw & _ & Hobj & _).
  split.
  - rewrite Ht. unfold notification. rewrite Hpc. cbn [ptr_eqb].
    now rewrite Pos.eqb_refl.
  - now exists w'.
Qed.

Lemma jumpTo_hides_the_player_character_between_areas_witness :
  pc sampleWorld = Some 1%positive
  /\ _area (objects sampleWorld 1%positive) = Some 1%positive
  /\ 1%positive <> 2%positive
  /\ traceOf (jumpTo 1%positive (Some 2%positive) (sampleFloat 1)
                (sampleFloat 2) (sampleFloat 3) sampleWorld)
     = [LockFrame; moveWarning sampleWorld 1%positive 2%positive;
        Hide 1%positive; UnloadModel 1%positive;
        SetArea 1%positive (Some 2%positive);
        SetPosition 1%positive (sampleFloat 1) (sampleFloat 2)
          (sampleFloat 3);
        UnlockFrame; MovedPC].
Proof.
  split; [reflexivity|]. split; [reflexivity|]. split; [discriminate|].
  apply (jumpTo_hides_the_player_character_between_areas sampleWorld
           1%positive 1%positive 2%positive (sampleFloat 1) (sampleFloat 2)
           (sampleFloat 3)); [reflexivity | reflexivity | discriminate].
Defined.

(** X15. A move within the object's area always returns, also when the
    player character is in no area; it warns of nothing, hides and shows
    nothing, does not touch the area reference, and leaves visibility and
    model as they were: only the position changes. *)
Theorem jumpTo_within_the_area_only_repositions
    (w : World) (o : ObjPtr) (a : AreaPtr) (x y z : float) :
  _area (objects w o) = Some a ->
  traceOf (jumpTo o (Some a) x y z w)
  = LockFrame :: SetPosition o x y z :: UnlockFrame :: notification w o
  /\ count isWarning (traceOf (jumpTo o (Some a) x y z w)) = 0%nat
  /\ count isVisual (traceOf (jumpTo o (Some a) x y z w)) = 0%nat
  /\ exists w',
      snd (jumpTo o (Some a) x y z w) = Done tt w'
      /\ objects w' o
         = mkObject (_tag (objects w o)) (_type (objects w o)) (Some a)
             (x, y, z) (_visible (objects w o)) (_modelLoaded (objects w o)).
Proof.
  intros H.
  destruct (jumpTo_path_same w o a x y z H) as (Ht & w' & Hw & _ & Hobj & _).
  rewrite Ht. split; [reflexivity|].
  assert (Hn : forall f, f MovedPC = false ->
                         filter f (notification w o) = []).
  { intros f Hf. unfold notification.
    destruct (ptr_eqb (Some o) (pc w)); cbn; now rewrite ?Hf. }
  unfold count. cbn [filter isWarning isVisual].
  rewrite !Hn by reflexivity.
  split; [reflexivity|]. split; [reflexivity|].
  now exists w'.
Qed.

Lemma jumpTo_within_the_area_only_repositions_witness :
  _area (objects sampleWorldLimbo 2%positive) = Some 2%positive
  /\ traceOf (jumpTo 2%positive (Some 2%positive) (sampleFloat 1)
                (sampleFloat 2) (sampleFloat 3) sampleWorldLimbo)
     = [LockFrame;
        SetPosition 2%positive (sampleFloat 1) (sampleFloat 2)
          (sampleFloat 3);
        UnlockFrame].
Proof.
  split; [reflexivity|].
  apply (jumpTo_within_the_area_only_repositions sampleWorldLimbo
           2%positive 2%positive (sampleFloat 1) (sampleFloat 2)
           (sampleFloat 3)).
  reflexivity.
Defined.

(** X16. After a call that completed, a second call for the same object
    and the same destination area is a move within the area: it takes and
    releases the lock around the position update alone, and the object
    stays in the area with the visibility and the model the first call
    left, at the new position. *)
Theorem jumpTo_again_only_repositions
    (w : World) (o : ObjPtr) (from to : AreaPtr) (x y z x' y' z' : float) :
  _area (objects w o) = Some from ->
  from = to \/ pcHasArea w ->
  exists w1 w2,
    snd (jumpTo o (Some to) x y z w) = Done tt w1
    /\ traceOf (jumpTo o (Some to) x' y' z' w1)
       = LockFrame :: SetPosition o x' y' z' :: UnlockFrame
           :: notification w o
    /\ snd (jumpTo o (Some to) x' y' z' w1) = Done tt w2
    /\ _area (objects w2 o) = Some to
    /\ _position (objects w2 o) = (x', y', z')
    /\ _visible (objects w2 o) = _visible (objects w1 o)
    /\ _modelLoaded (objects w2 o) = _modelLoaded (objects w1 o).
Proof.
  intros H Hok.
  destruct (jumpTo_completes w o from to x y z H Hok)
    as (mid & w1 & _ & _ & Hw1 & Hpc1 & Ha1 & _).
  destruct (jumpTo_path_same w1 o to x' y' z' Ha1)
    as (Ht & w2 & Hw2 & _ & Hobj & _).
  exists w1, w2. rewrite Hobj.
  split; [exact Hw1|]. split.
  - rewrite Ht. unfold notification. now rewrite Hpc1.
  - repeat split. exact Hw2.
Qed.

Lemma jumpTo_again_only_repositions_witness :
  _area (objects sampleWorld 2%positive) = Some 2%positive
  /\ (2%positive = 1%positive \/ pcHasArea sampleWorld)
  /\ exists w1 w2,
      snd (jumpTo 2%positive (Some 1%positive) (sampleFloat 1)
             (sampleFloat 2) (sampleFloat 3) sampleWorld) = Done tt w1
      /\ traceOf (jumpTo 2%positive (Some 1%positive) (sampleFloat 4)
                    (sampleFloat 5) (sampleFloat 6) w1)
         = LockFrame
           :: SetPosition 2%positive (sampleFloat 4) (sampleFloat 5)
                (sampleFloat 6)
           :: UnlockFrame :: notification sampleWorld 2%positive
      /\ snd (jumpTo 2%positive (Some 1%positive) (sampleFloat 4)
                (sampleFloat 5) (sampleFloat 6) w1) = Done tt w2
      /\ _area (objects w2 2%positive) = Some 1%positive
      /\ _position (objects w2 2%positive)
         = (sampleFloat 4, sampleFloat 5, sampleFloat 6)
      /\ _visible (objects w2 2%positive) = _visible (objects w1 2%positive)
      /\ _modelLoaded (objects w2 2%positive)
         = _modelLoaded (objects w1 2%positive).
Proof.
  assert (Hpc : pcHasArea sampleWorld).
  { intros p Hp. injection Hp as <-. discriminate. }
  split; [reflexivity|]. split; [right; exact Hpc|].
  apply (jumpTo_again_only_repositions sampleWorld 2%positive 2%positive
           1%positive (sampleFloat 1) (sampleFloat 2) (sampleFloat 3)
           (sampleFloat 4) (sampleFloat 5) (sampleFloat 6) eq_refl).
  right; exact Hpc.
Defined.

(** X17. An object other than the player character that is moved out of
    the area with the resource reference of the player character's area,
    into an area with another one, and then moved back, is hidden and
    unloaded by the first call and loaded and shown by the second: it ends
    in the area it came from, visible and with its model loaded, whatever
    it was before. *)
Theorem jumpTo_out_and_back_shows_the_object
    (w : World) (o pcp : ObjPtr) (from to pa : AreaPtr)
    (x y z x' y' z' : float) :
  pc w = Some pcp ->
  pcp <> o ->
  _area (objects w pcp) = Some pa ->
  _area (objects w o) = Some from ->
  from <> to ->
  resRef w from = resRef w pa ->
  resRef w to <> resRef w pa ->
  exists w1 w2,
    snd (jumpTo o (Some to) x y z w) = Done tt w1
    /\ filter isVisual (traceOf (jumpTo o (Some to) x y z w))
       = [Hide o; UnloadModel o]
    /\ snd (jumpTo o (Some from) x' y' z' w1) = Done tt w2
    /\ filter isVisual (traceOf (jumpTo o (Some from) x' y' z' w1))
       = [LoadModel o; Show o]
    /\ objects w2 o
       = mkObject (_tag (objects w o)) (_type (objects w o)) (Some from)
           (x', y', z') true true.
Proof.
  intros Hpc Hother Hpa H Hne Hfrom Hto.
  assert (Hn : forall w0, filter isVisual (notification w0 o) = []).
  { intros w0. unfold notification.
    now destruct (ptr_eqb (Some o) (pc w0)). }
  destruct (jumpTo_path_leave w o pcp from to pa x y z H Hne Hpc Hpa Hfrom)
    as (Ht1 & w1 & Hw1 & Hpc1 & Hobj1 & Hrest1 & Hres1).
  assert (H1 : _area (objects w1 o) = Some to) by now rewrite Hobj1.
  assert (Hpa1 : _area (objects w1 pcp) = Some pa)
    by now rewrite (Hrest1 pcp Hother).
  assert (Hpc1' : pc w1 = Some pcp) by now rewrite Hpc1.
  assert (Hto1 : resRef w1 to <> resRef w1 pa) by now rewrite !Hres1.
  assert (Hfrom1 : resRef w1 from = resRef w1 pa) by now rewrite !Hres1.
  destruct (jumpTo_path_enter w1 o pcp to from pa x' y' z' H1
              (not_eq_sym Hne) Hpc1' Hpa1 Hto1 Hfrom1)
    as (Ht2 & w2 & Hw2 & _ & Hobj2 & _).
  exists w1, w2.
  split; [exact Hw1|]. split; [now rewrite Ht1, filter_app, Hn|].
  split; [exact Hw2|]. split; [now rewrite Ht2, filter_app, Hn|].
  rewrite Hobj2, Hobj1. reflexivity.
Qed.

Lemma jumpTo_out_and_back_shows_the_object_witness :
  pc sampleWorldNear = Some 1%positive
  /\ 1%positive <> 6%positive
  /\ _area (objects sampleWorldNear 1%positive) = Some 1%positive
  /\ _area (objects sampleWorldNear 6%positive) = Some 1%positive
  /\ 1%positive <> 2%positive
  /\ resRef sampleWorldNear 1%positive = resRef sampleWorldNear 1%positive
  /\ resRef sampleWorldNear 2%positive <> resRef sampleWorldNear 1%positive
  /\ exists w1 w2,
      snd (jumpTo 6%positive (Some 2%positive) (sampleFloat 1)
             (sampleFloat 2) (sampleFloat 3) sampleWorldNear) = Done tt w1
      /\ filter isVisual
           (traceOf (jumpTo 6%positive (Some 2%positive) (sampleFloat 1)
                       (sampleFloat 2) (sampleFloat 3) sampleWorldNear))
         = [Hide 6%positive; UnloadModel 6%positive]
      /\ snd (jumpTo 6%positive (Some 1%positive) (sampleFloat 4)
                (sampleFloat 5) (sampleFloat 6) w1) = Done tt w2
      /\ filter isVisual
           (traceOf (jumpTo 6%positive (Some 1%positive) (sampleFloat 4)
                       (sampleFloat 5) (sampleFloat 6) w1))
         = [LoadModel 6%positive; Show 6%positive]
      /\ objects w2 6%positive
         = mkObject (_tag (objects sampleWorldNear 6%positive))
             (_type (objects sampleWorldNear 6%positive)) (Some 1%positive)
             (sampleFloat 4, sampleFloat 5, sampleFloat 6) true true.
Proof.
  split; [reflexivity|]. split; [discriminate|].
  split; [reflexivity|]. split; [reflexivity|]. split; [discriminate|].
  split; [reflexivity|]. split; [discriminate|].
  apply (jumpTo_out_and_back_shows_the_object sampleWorldNear 6%positive
           1%positive 1%positive 2%positive 1%positive
           (sampleFloat 1) (sampleFloat 2) (sampleFloat 3)
           (sampleFloat 4) (sampleFloat 5) (sampleFloat 6));
    try reflexivity; discriminate.
Defined.

(** X18. In a move between two areas with the player character in an
    area, hiding and showing are decided by comparing resource references,
    not area objects: the object is hidden and unloaded when the area it
    leaves has the resource reference of the player character's area;
    otherwise it is loaded and shown when the destination has it;
    otherwise neither. *)
Theorem jumpTo_decides_visibility_by_resource_reference
    (w : World) (o pcp : ObjPtr) (from to pa : AreaPtr) (x y z : float) :
  pc w = Some pcp ->
  _area (objects w pcp) = Some pa ->
  _area (objects w o) = Some from ->
  from <> to ->
  filter isVisual (traceOf (jumpTo o (Some to) x y z w))
  = if String.eqb (resRef w from) (resRef w pa)
    then [Hide o; UnloadModel o]
    else if String.eqb (resRef w to) (resRef w pa)
         then [LoadModel o; Show o]
         else [].
Proof.
  intros Hpc Hpa H Hne.
  assert (Hn : filter isVisual (notification w o) = []).
  { unfold notification. now destruct (ptr_eqb (Some o) (pc w)). }
  destruct (String.eqb_spec (resRef w from) (resRef w pa)) as [Hfrom|Hfrom].
  { destruct (jumpTo_path_leave w o pcp from to pa x y z H Hne Hpc Hpa Hfrom)
      as (Ht & _).
    now rewrite Ht, filter_app, Hn. }
  destruct (String.eqb_spec (resRef w to) (resRef w pa)) as [Hto|Hto].
  { destruct (jumpTo_path_enter w o pcp from to pa x y z H Hne Hpc Hpa
                Hfrom Hto) as (Ht & _).
    now rewrite Ht, filter_app, Hn. }
  destruct (jumpTo_path_elsewhere w o pcp from to pa x y z H Hne Hpc Hpa
              Hfrom Hto) as (Ht & _).
  now rewrite Ht, filter_app, Hn.
Qed.

Lemma jumpTo_decides_visibility_by_resource_reference_witness :
  pc sampleWorld = Some 1%positive
  /\ _area (objects sampleWorld 1%positive) = Some 1%positive
  /\ _area (objects sampleWorld 2%positive) = Some 2%positive
  /\ 2%positive <> 3%positive
  /\ filter isVisual
       (traceOf (jumpTo 2%positive (Some 3%positive) (sampleFloat 1)
                   (sampleFloat 2) (sampleFloat 3) sampleWorld))
     = [].
Proof.
  split; [reflexivity|]. split; [reflexivity|]. split; [reflexivity|].
  split; [discriminate|].
  apply (jumpTo_decides_visibility_by_resource_reference sampleWorld
           2%positive 1%positive 2%positive 3%positive 1%positive
           (sampleFloat 1) (sampleFloat 2) (sampleFloat 3));
    try reflexivity; discriminate.
Defined.

(** X19. A call that passed the sanity check returns exactly when the move
    stays in the object's area or the player character, if there is one,
    is in an area; in the one remaining case it has no normal return. *)
Theorem jumpTo_returns_iff_pc_has_area_or_same_area
    (w : World) (o : ObjPtr) (from to : AreaPtr) (x y z : float) :
  _area (objects w o) = Some from ->
  ((exists w', snd (jumpTo o (Some to) x y z w) = Done tt w')
   <-> from = to \/ pcHasArea w).
Proof.
  intros H. split.
  - intros [w' Hdone].
    destruct (Pos.eq_dec from to) as [Heq|Hne]; [now left|right].
    intros p Hp Hnone.
    rewrite (jumpTo_path_fault w o p from to x y z H Hne Hp Hnone) in Hdone.
    discriminate Hdone.
  - intros Hok.
    destruct (jumpTo_completes w o from to x y z H Hok)
      as (mid & w' & _ & _ & Hw & _).
    now exists w'.
Qed.

Lemma jumpTo_returns_iff_pc_has_area_or_same_area_witness :
  _area (objects sampleWorldLimbo 2%positive) = Some 2%positive
  /\ ~ (exists w', snd (jumpTo 2%positive (Some 1%positive) (sampleFloat 1)
                          (sampleFloat 2) (sampleFloat 3) sampleWorldLimbo)
                   = Done tt w').
Proof.
  split; [reflexivity|].
  intros Hret.
  apply (jumpTo_returns_iff_pc_has_area_or_same_area sampleWorldLimbo
           2%positive 2%positive 1%positive (sampleFloat 1) (sampleFloat 2)
           (sampleFloat 3) eq_refl) in Hret.
  destruct Hret as [Heq|Hpc]; [discriminate Heq|].
  now apply (Hpc 3%positive eq_refl).
Defined.

(** *** The diagnostic of an unimplemented function *)

(** X20. The handler of unimplemented functions logs exactly one line,
    the word TODO, the name of the function called and, in parentheses,
    the texts of its parameters separated by a comma and a space; it
    returns the context and the world as it found them. *)
Theorem unimplementedFunction_logs_name_and_parameters `{StrUtil}
    (ctx : FunctionContext) (w : World) :
  unimplementedFunction ctx w
  = ([Warning ("TODO: " ++ ctx_name ctx ++ "("
               ++ String.concat ", " (map (paramText w) (ctx_params ctx))
               ++ ")")],
     Done ctx w).
Proof.
  unfold unimplementedFunction, bind at 1, formatParams.
  rewrite formatParams_loop_text.
  destruct (ctx_params ctx); reflexivity.
Qed.

(** *** The handler registered for a null entry *)




(** *** Hiding and showing in a move between areas *)




End NWN2More.
